(** * Simple harmonic motion simulator (mass-spring and simple pendulum)

    A shallow embedding of [script.js]: the kinematics evaluator, the
    rolling sample buffer, the analytic key-point annotator, the drag
    handlers' back-solve of time and the per-frame render driver.

    JavaScript numbers are modelled as real numbers ([R]); the integer loop
    counter of [calculateKeyPoints] is a [Z].  The global mutable objects
    ([simulationMode], [params], [simulation], [validationState],
    [dragState], [graphData]) are the fields of one explicit [World] record
    that every operation takes and returns.  The browser is a [Host]: the
    canvas size, the pending animation-frame requests and the console.
    Canvas painting, DOM text and Chart.js rendering are outside the model,
    except for the state that painting writes back
    ([dragState.massPosition], [dragState.massRadius]). *)

From Stdlib Require Import Reals Lra Lia ZArith List Bool Sorted.
From Stdlib Require Import Relations RelationClasses.
Import ListNotations.

Local Open Scope R_scope.

(** ** Comparisons of numbers as booleans *)

Definition Rleb (a b : R) : bool := if Rle_dec a b then true else false.

Definition Rltb (a b : R) : bool := if Rlt_dec a b then true else false.

(** ** Data model *)

(** [simulationMode]: ['spring'] or ['pendulum']. *)
Inductive SimulationMode : Type :=
| spring
| pendulum.

(** The [params] object. *)
Record Params : Type := mkParams {
  mass : R;
  springConstant : R;
  amplitude : R;
  pendulumLength : R;
  pendulumAngle : R;
  gravity : R;
  phase : R
}.

(** The property names of [params], which are also the keys of
    [validationState]. *)
Inductive ParamKey : Type :=
| key_mass
| key_springConstant
| key_amplitude
| key_pendulumLength
| key_pendulumAngle
| key_gravity
| key_phase.

Definition ParamKey_eq_dec (a b : ParamKey) : {a = b} + {a <> b}.
Proof. decide equality. Defined.

(** [params[paramName] = value]. *)
Definition setParam (k : ParamKey) (v : R) (p : Params) : Params :=
  match k with
  | key_mass =>
      mkParams v (springConstant p) (amplitude p) (pendulumLength p)
        (pendulumAngle p) (gravity p) (phase p)
  | key_springConstant =>
      mkParams (mass p) v (amplitude p) (pendulumLength p)
        (pendulumAngle p) (gravity p) (phase p)
  | key_amplitude =>
      mkParams (mass p) (springConstant p) v (pendulumLength p)
        (pendulumAngle p) (gravity p) (phase p)
  | key_pendulumLength =>
      mkParams (mass p) (springConstant p) (amplitude p) v
        (pendulumAngle p) (gravity p) (phase p)
  | key_pendulumAngle =>
      mkParams (mass p) (springConstant p) (amplitude p) (pendulumLength p)
        v (gravity p) (phase p)
  | key_gravity =>
      mkParams (mass p) (springConstant p) (amplitude p) (pendulumLength p)
        (pendulumAngle p) v (phase p)
  | key_phase =>
      mkParams (mass p) (springConstant p) (amplitude p) (pendulumLength p)
        (pendulumAngle p) (gravity p) v
  end.

Definition PIXELS_PER_METER : R := 320.

(** The [simulation] object.  [animationId] is [null] ([None]) or the
    handle returned by [requestAnimationFrame]. *)
Record Simulation : Type := mkSimulation {
  time : R;
  isRunning : bool;
  animationId : option nat;
  lastTimestamp : R;
  timeScale : R
}.

(** The [validationState] object: one flag per parameter key. *)
Definition ValidationState : Type := ParamKey -> bool.

(** A chart point [{ x, y }]; also the shape of [dragState.massPosition]. *)
Record Point : Type := mkPoint {
  x : R;
  y : R
}.

Record DragState : Type := mkDragState {
  isDragging : bool;
  wasRunning : bool;
  massPosition : Point;
  massRadius : R
}.

(** The [graphData] object: the three sample series and the window. *)
Record GraphData : Type := mkGraphData {
  position : list Point;
  velocity : list Point;
  acceleration : list Point;
  maxPoints : Z;
  timeWindow : R
}.

(** The browser: the size of [springCanvas], the animation-frame requests
    not yet delivered or cancelled, the next request handle (handles are
    non-zero), and the number of [console.warn] calls so far. *)
Record Host : Type := mkHost {
  canvasWidth : R;
  canvasHeight : R;
  frameRequests : list nat;
  nextRequestId : nat;
  consoleWarnings : nat
}.

Record World : Type := mkWorld {
  simulationMode : SimulationMode;
  params : Params;
  simulation : Simulation;
  validationState : ValidationState;
  dragState : DragState;
  graphData : GraphData;
  host : Host
}.

(** Field updates. *)
Definition setMode (m : SimulationMode) (w : World) : World :=
  mkWorld m (params w) (simulation w) (validationState w) (dragState w)
    (graphData w) (host w).

Definition setParams (p : Params) (w : World) : World :=
  mkWorld (simulationMode w) p (simulation w) (validationState w)
    (dragState w) (graphData w) (host w).

Definition setSimulation (s : Simulation) (w : World) : World :=
  mkWorld (simulationMode w) (params w) s (validationState w) (dragState w)
    (graphData w) (host w).

Definition setValidationState (v : ValidationState) (w : World) : World :=
  mkWorld (simulationMode w) (params w) (simulation w) v (dragState w)
    (graphData w) (host w).

Definition setDragState (d : DragState) (w : World) : World :=
  mkWorld (simulationMode w) (params w) (simulation w) (validationState w) d
    (graphData w) (host w).

Definition setGraphData (g : GraphData) (w : World) : World :=
  mkWorld (simulationMode w) (params w) (simulation w) (validationState w)
    (dragState w) g (host w).

Definition setHost (h : Host) (w : World) : World :=
  mkWorld (simulationMode w) (params w) (simulation w) (validationState w)
    (dragState w) (graphData w) h.

Definition setTime (t : R) (s : Simulation) : Simulation :=
  mkSimulation t (isRunning s) (animationId s) (lastTimestamp s) (timeScale s).

Definition setIsRunning (b : bool) (s : Simulation) : Simulation :=
  mkSimulation (time s) b (animationId s) (lastTimestamp s) (timeScale s).

Definition setAnimationId (a : option nat) (s : Simulation) : Simulation :=
  mkSimulation (time s) (isRunning s) a (lastTimestamp s) (timeScale s).

Definition setLastTimestamp (t : R) (s : Simulation) : Simulation :=
  mkSimulation (time s) (isRunning s) (animationId s) t (timeScale s).

(** [graphData.position = []; graphData.velocity = [];
    graphData.acceleration = []]. *)
Definition clearSeries (g : GraphData) : GraphData :=
  mkGraphData [] [] [] (maxPoints g) (timeWindow g).

(** ** The host's frame scheduler and console *)

(** [requestAnimationFrame(animate)]: the new handle and the host after. *)
Definition requestAnimationFrame (h : Host) : nat * Host :=
  (nextRequestId h,
   mkHost (canvasWidth h) (canvasHeight h)
     (frameRequests h ++ [nextRequestId h]) (S (nextRequestId h))
     (consoleWarnings h)).

(** [cancelAnimationFrame(id)]. *)
Definition cancelAnimationFrame (id : nat) (h : Host) : Host :=
  mkHost (canvasWidth h) (canvasHeight h)
    (filter (fun r => negb (Nat.eqb r id)) (frameRequests h))
    (nextRequestId h) (consoleWarnings h).

(** [console.warn(...)]. *)
Definition consoleWarn (h : Host) : Host :=
  mkHost (canvasWidth h) (canvasHeight h) (frameRequests h)
    (nextRequestId h) (S (consoleWarnings h)).

(** ** Kinematics evaluator *)

Definition calculateOmega (w : World) : R :=
  match simulationMode w with
  | spring => sqrt (springConstant (params w) / mass (params w))
  | pendulum => sqrt (gravity (params w) / pendulumLength (params w))
  end.

Definition calculatePeriod (w : World) : R := (2 * PI) / calculateOmega w.

Definition calculateFrequency (w : World) : R := 1 / calculatePeriod w.

Definition getAmplitude (w : World) : R :=
  match simulationMode w with
  | spring => amplitude (params w)
  | pendulum => pendulumAngle (params w) * PI / 180
  end.

Definition calculatePosition (w : World) (t : R) : R :=
  let omega := calculateOmega w in
  let A := getAmplitude w in
  A * cos (omega * t + phase (params w)).

Definition calculateVelocity (w : World) (t : R) : R :=
  let omega := calculateOmega w in
  let A := getAmplitude w in
  - A * omega * sin (omega * t + phase (params w)).

Definition calculateAcceleration (w : World) (t : R) : R :=
  let omega := calculateOmega w in
  let A := getAmplitude w in
  - A * omega * omega * cos (omega * t + phase (params w)).

(** The formulas of the specification, written per mode from its words, to
    be compared with the evaluator above. *)
Module KinematicsSpec.

Definition omega (m : SimulationMode) (p : Params) : R :=
  match m with
  | spring => sqrt (springConstant p / mass p)
  | pendulum => sqrt (gravity p / pendulumLength p)
  end.

Definition A (m : SimulationMode) (p : Params) : R :=
  match m with
  | spring => amplitude p
  | pendulum => pendulumAngle p * PI / 180
  end.

Definition position (m : SimulationMode) (p : Params) (t : R) : R :=
  A m p * cos (omega m p * t + phase p).

Definition velocity (m : SimulationMode) (p : Params) (t : R) : R :=
  - (A m p * omega m p * sin (omega m p * t + phase p)).

Definition acceleration (m : SimulationMode) (p : Params) (t : R) : R :=
  - (A m p * (omega m p)² * cos (omega m p * t + phase p)).

End KinematicsSpec.

(** ** Parameter validation *)

(** [showError(inputId, errorId, show, validationKey)]: the flag of
    [validationKey] becomes [!show]; an absent key leaves the flags alone. *)
Definition showError (show : bool) (validationKey : option ParamKey)
  (w : World) : World :=
  match validationKey with
  | Some k =>
      setValidationState
        (fun k' => if ParamKey_eq_dec k' k then negb show
                   else validationState w k')
        w
  | None => w
  end.

Definition allKeys : list ParamKey :=
  [key_mass; key_springConstant; key_amplitude; key_pendulumLength;
   key_pendulumAngle; key_gravity; key_phase].

(** [Object.values(validationState).some(isValid => !isValid)]. *)
Definition hasErrors (w : World) : bool :=
  existsb (fun isValid => negb isValid) (map (validationState w) allKeys).

(** [validateAndUpdate(value, min, max, paramName, ..., validationKey)];
    [value] is the result of [parseFloat], [None] standing for [NaN]. *)
Definition validateAndUpdate (value : option R) (min max : R)
  (paramName validationKey : ParamKey) (w : World) : bool * World :=
  match value with
  | None => (false, showError true (Some validationKey) w)
  | Some numValue =>
      if Rltb numValue min || Rltb max numValue
      then (false, showError true (Some validationKey) w)
      else
        let w1 := showError false (Some validationKey) w in
        (true, setParams (setParam paramName numValue (params w1)) w1)
  end.

(** The accepted range of each manual input field. *)
Definition inputRange (k : ParamKey) : R * R :=
  match k with
  | key_mass => (5 / 10, 5)
  | key_springConstant => (10, 100)
  | key_amplitude => (1 / 100, 50 / 100)
  | key_pendulumLength => (5 / 10, 3)
  | key_pendulumAngle => (1, 15)
  | key_gravity => (1, 20)
  | key_phase => (0, 628 / 100)
  end.

(** The ['input'] listener of a manual input field. *)
Definition manualInput (k : ParamKey) (value : option R) (w : World) : World :=
  match k with
  | key_phase =>
      let isValid :=
        match value with
        | None => false
        | Some v => Rleb 0 v && Rleb v (628 / 100)
        end in
      let w1 := showError (negb isValid) (Some key_phase) w in
      match value with
      | Some v =>
          if isValid then setParams (setParam key_phase v (params w1)) w1
          else w1
      | None => w1
      end
  | _ =>
      snd (validateAndUpdate value (fst (inputRange k)) (snd (inputRange k))
             k k w)
  end.

(** The ['input'] listener of a slider. *)
Definition sliderInput (k : ParamKey) (value : R) (w : World) : World :=
  showError false (Some k) (setParams (setParam k value (params w)) w).

(** ** Painting: the state written back for drag hit-testing *)

(** [drawSpring(displacement)]: the mass is painted at
    [(width / 2, height / 2 + displacement)] with radius 25. *)
Definition drawSpring (displacement : R) (w : World) : World :=
  let width := canvasWidth (host w) in
  let height := canvasHeight (host w) in
  let anchorX := width / 2 in
  let equilibriumY := height / 2 in
  let massY := equilibriumY + displacement in
  let massRadius := 25 in
  setDragState
    (mkDragState (isDragging (dragState w)) (wasRunning (dragState w))
       (mkPoint anchorX massY) massRadius)
    w.

(** [drawPendulum(angle)]. *)
Definition drawPendulum (angle : R) (w : World) : World :=
  let width := canvasWidth (host w) in
  let pivotX := width / 2 in
  let pivotY := 50 in
  let ropeLength := 80 + (pendulumLength (params w) - 5 / 10) * 64 in
  let masaRadius := 20 in
  let masaX := pivotX + ropeLength * sin angle in
  let masaY := pivotY + ropeLength * cos angle in
  setDragState
    (mkDragState (isDragging (dragState w)) (wasRunning (dragState w))
       (mkPoint masaX masaY) masaRadius)
    w.

(** ** Sample buffer manager *)

(** The eviction loop of [addDataPoint]:
    [while (position.length > 0 && position[0].x < minTime)] shift all
    three series.  [shift()] on an empty array does nothing ([tl]). *)
Fixpoint evictOld (minTime : R) (pos vel acc : list Point)
  : list Point * list Point * list Point :=
  match pos with
  | [] => (pos, vel, acc)
  | p :: pos' =>
      if Rltb (x p) minTime
      then evictOld minTime pos' (tl vel) (tl acc)
      else (pos, vel, acc)
  end.

Definition addDataPoint (time position_ velocity_ acceleration_ : R)
  (w : World) : World :=
  let g := graphData w in
  let positionForGraph :=
    match simulationMode w with
    | pendulum => position_ * 180 / PI
    | spring => position_
    end in
  let pos := position g ++ [mkPoint time positionForGraph] in
  let vel := velocity g ++ [mkPoint time velocity_] in
  let acc := acceleration g ++ [mkPoint time acceleration_] in
  let minTime := time - timeWindow g - 5 / 10 in
  let '(pos', vel', acc') := evictOld minTime pos vel acc in
  setGraphData (mkGraphData pos' vel' acc' (maxPoints g) (timeWindow g)) w.

(** ** Control of the simulation *)

Definition startSimulation (w : World) : World :=
  if hasErrors w then setHost (consoleWarn (host w)) w
  else if negb (isRunning (simulation w)) then
    let '(id, h) := requestAnimationFrame (host w) in
    setHost h
      (setSimulation
         (setAnimationId (Some id)
            (setLastTimestamp 0 (setIsRunning true (simulation w))))
         w)
  else w.

(** [if (simulation.animationId)] holds for a non-zero handle. *)
Definition pauseSimulation (w : World) : World :=
  let w1 := setSimulation (setIsRunning false (simulation w)) w in
  match animationId (simulation w1) with
  | Some (S id') =>
      setSimulation (setAnimationId None (simulation w1))
        (setHost (cancelAnimationFrame (S id') (host w1)) w1)
  | _ => w1
  end.

Definition resetSimulation (w : World) : World :=
  let w1 := pauseSimulation w in
  let w2 := setSimulation (setLastTimestamp 0 (setTime 0 (simulation w1))) w1 in
  let w3 := setGraphData (clearSeries (graphData w2)) w2 in
  match simulationMode w3 with
  | spring => drawSpring 0 w3
  | pendulum => drawPendulum 0 w3
  end.

Definition switchMode (mode : SimulationMode) (w : World) : World :=
  resetSimulation (setMode mode w).

(** The frame callback. *)
Definition animate (timestamp : R) (w : World) : World :=
  if negb (isRunning (simulation w)) then w
  else
    let sim := simulation w in
    let sim1 :=
      if Req_dec_T (lastTimestamp sim) 0 then setLastTimestamp timestamp sim
      else sim in
    let deltaTime := (timestamp - lastTimestamp sim1) / 1000 in
    let sim2 := setLastTimestamp timestamp sim1 in
    let clampedDelta := Rmin deltaTime (1 / 10) in
    let sim3 := setTime (time sim2 + clampedDelta * timeScale sim2) sim2 in
    let w1 := setSimulation sim3 w in
    let position_ := calculatePosition w1 (time sim3) in
    let velocity_ := calculateVelocity w1 (time sim3) in
    let acceleration_ := calculateAcceleration w1 (time sim3) in
    let w2 := addDataPoint (time sim3) position_ velocity_ acceleration_ w1 in
    let w3 :=
      match simulationMode w2 with
      | spring => drawSpring (position_ * PIXELS_PER_METER) w2
      | pendulum => drawPendulum position_ w2
      end in
    let '(id, h) := requestAnimationFrame (host w3) in
    setHost h (setSimulation (setAnimationId (Some id) (simulation w3)) w3).

(** The browser delivers the pending request [id] at [timestamp]: the
    request leaves the pending list and the callback runs. *)
Definition deliverFrame (id : nat) (timestamp : R) (w : World) : World :=
  animate timestamp (setHost (cancelAnimationFrame id (host w)) w).

(** ** Key-point annotator *)

(** The [type] argument: ['position'], ['velocity'] or ['acceleration']. *)
Inductive ChartType : Type :=
| type_position
| type_velocity
| type_acceleration.

(** The result [{ maximos, minimos, ceros }]. *)
Record KeyPoints : Type := mkKeyPoints {
  maximos : list Point;
  minimos : list Point;
  ceros : list Point
}.

(** The values of the loop counter of [for (n = startN; n <= endN; n++)]. *)
Definition forRange (startN endN : Z) : list Z :=
  map (fun i => (startN + Z.of_nat i)%Z)
    (seq 0 (Z.to_nat (endN - startN + 1))).

(** [t >= minTime && t <= maxTime && t <= simulation.time]. *)
Definition visibleAndOccurred (w : World) (minTime maxTime t : R) : bool :=
  Rleb minTime t && Rleb t maxTime && Rleb t (time (simulation w)).

(** [array.push(p)] under a condition. *)
Definition pushIf (c : bool) (p : Point) (l : list Point) : list Point :=
  if c then l ++ [p] else l.

(** One iteration of the loop of [calculateKeyPoints]. *)
Definition keyPointsIteration (w : World) (minTime maxTime : R)
  (type : ChartType) (acc : KeyPoints) (n : Z) : KeyPoints :=
  let omega := calculateOmega w in
  let phi := phase (params w) in
  let A := getAmplitude w in
  let '(tMax, tMin, tZero1, tZero2, yMax, yMin) :=
    match type with
    | type_position =>
        ((2 * PI * IZR n - phi) / omega,
         ((2 * IZR n + 1) * PI - phi) / omega,
         (PI / 2 + 2 * PI * IZR n - phi) / omega,
         (3 * PI / 2 + 2 * PI * IZR n - phi) / omega,
         match simulationMode w with
         | pendulum => A * 180 / PI
         | spring => A
         end,
         match simulationMode w with
         | pendulum => - A * 180 / PI
         | spring => - A
         end)
    | type_velocity =>
        ((3 * PI / 2 + 2 * PI * IZR n - phi) / omega,
         (PI / 2 + 2 * PI * IZR n - phi) / omega,
         (2 * PI * IZR n - phi) / omega,
         (PI + 2 * PI * IZR n - phi) / omega,
         A * omega,
         - A * omega)
    | type_acceleration =>
        (((2 * IZR n + 1) * PI - phi) / omega,
         (2 * PI * IZR n - phi) / omega,
         (PI / 2 + 2 * PI * IZR n - phi) / omega,
         (3 * PI / 2 + 2 * PI * IZR n - phi) / omega,
         A * omega * omega,
         - A * omega * omega)
    end in
  let maximos1 :=
    pushIf (visibleAndOccurred w minTime maxTime tMax) (mkPoint tMax yMax)
      (maximos acc) in
  let minimos1 :=
    pushIf (visibleAndOccurred w minTime maxTime tMin) (mkPoint tMin yMin)
      (minimos acc) in
  let ceros1 :=
    pushIf (visibleAndOccurred w minTime maxTime tZero1) (mkPoint tZero1 0)
      (ceros acc) in
  let ceros2 :=
    pushIf (visibleAndOccurred w minTime maxTime tZero2) (mkPoint tZero2 0)
      ceros1 in
  mkKeyPoints maximos1 minimos1 ceros2.

Definition calculateKeyPoints (w : World) (minTime maxTime : R)
  (type : ChartType) : KeyPoints :=
  let omega := calculateOmega w in
  let phi := phase (params w) in
  let startN := (Zfloor ((minTime * omega + phi) / (2 * PI)) - 1)%Z in
  let endN := (Zceil ((maxTime * omega + phi) / (2 * PI)) + 1)%Z in
  fold_left (keyPointsIteration w minTime maxTime type)
    (forRange startN endN) (mkKeyPoints [] [] []).

(** Every returned key point has the property [P]. *)
Definition allKeyPoints (P : Point -> Prop) (k : KeyPoints) : Prop :=
  Forall P (maximos k) /\ Forall P (minimos k) /\ Forall P (ceros k).

(** The time window of [updateChart] and the key points it hands to the
    chart. *)
Definition updateChart (w : World) (type : ChartType) : KeyPoints :=
  let currentTime := time (simulation w) in
  let '(minTime, maxTime) :=
    if Rleb currentTime (timeWindow (graphData w))
    then (0, timeWindow (graphData w))
    else (currentTime - timeWindow (graphData w), currentTime) in
  calculateKeyPoints w minTime maxTime type.

(** ** Drag interaction *)

Definition isMouseOverMass (w : World) (mouseX mouseY : R) : bool :=
  let distance :=
    sqrt ((mouseX - x (massPosition (dragState w))) ^ 2 +
          (mouseY - y (massPosition (dragState w))) ^ 2) in
  Rleb distance (massRadius (dragState w)).

(** [mouseX], [mouseY] are the pointer coordinates relative to the canvas
    ([e.clientX - rect.left], [e.clientY - rect.top]). *)
Definition handleCanvasMouseDown (mouseX mouseY : R) (w : World) : World :=
  if isMouseOverMass w mouseX mouseY then
    let w1 :=
      setDragState
        (mkDragState true (isRunning (simulation w))
           (massPosition (dragState w)) (massRadius (dragState w)))
        w in
    let w2 := if isRunning (simulation w1) then pauseSimulation w1 else w1 in
    let w3 := setSimulation (setTime 0 (simulation w2)) w2 in
    setGraphData (clearSeries (graphData w3)) w3
  else w.

(** The loop [while (internalTime < 0) internalTime += calculatePeriod()];
    [fuel] bounds the number of times the loop condition is tested, and
    [None] means the bound was reached with the loop still going. *)
Fixpoint normalizeInternalTime (fuel : nat) (period internalTime : R)
  : option R :=
  match fuel with
  | O => None
  | S fuel' =>
      if Rltb internalTime 0
      then normalizeInternalTime fuel' period (internalTime + period)
      else Some internalTime
  end.

(** [Math.atan2(y, x)]. *)
Definition atan2 (y_ x_ : R) : R :=
  if Rltb 0 x_ then atan (y_ / x_)
  else if Rltb x_ 0 then
    if Rleb 0 y_ then atan (y_ / x_) + PI else atan (y_ / x_) - PI
  else if Rltb 0 y_ then PI / 2
  else if Rltb y_ 0 then - (PI / 2)
  else 0.

(** [handleSpringDrag(mouseY)]: the result carries the [internalTime]
    reached by the loop and the world after the handler. *)
Definition handleSpringDrag (fuel : nat) (mouseY : R) (w : World)
  : option (R * World) :=
  let height := canvasHeight (host w) in
  let equilibriumY := height / 2 in
  let newDisplacement := mouseY - equilibriumY in
  let maxDisplacementPixels := amplitude (params w) * PIXELS_PER_METER in
  let newDisplacement :=
    Rmax (- maxDisplacementPixels) (Rmin maxDisplacementPixels newDisplacement) in
  let newPosition := newDisplacement / PIXELS_PER_METER in
  let omega := calculateOmega w in
  let A := amplitude (params w) in
  let ratio := Rmax (-1) (Rmin 1 (newPosition / A)) in
  match
    normalizeInternalTime fuel (calculatePeriod w)
      ((acos ratio - phase (params w)) / omega)
  with
  | None => None
  | Some internalTime =>
      let w1 := setSimulation (setTime 0 (simulation w)) w in
      Some (internalTime, drawSpring newDisplacement w1)
  end.

(** [handlePendulumDrag(mouseX, mouseY)]. *)
Definition handlePendulumDrag (fuel : nat) (mouseX mouseY : R) (w : World)
  : option (R * World) :=
  let width := canvasWidth (host w) in
  let pivotX := width / 2 in
  let pivotY := 50 in
  let dx := mouseX - pivotX in
  let dy := mouseY - pivotY in
  let newAngle := atan2 dx dy in
  let maxAngle := pendulumAngle (params w) * PI / 180 in
  let newAngle := Rmax (- maxAngle) (Rmin maxAngle newAngle) in
  let omega := calculateOmega w in
  let A := pendulumAngle (params w) * PI / 180 in
  let ratio := Rmax (-1) (Rmin 1 (newAngle / A)) in
  match
    normalizeInternalTime fuel (calculatePeriod w)
      ((acos ratio - phase (params w)) / omega)
  with
  | None => None
  | Some internalTime =>
      let w1 := setSimulation (setTime 0 (simulation w)) w in
      Some (internalTime, drawPendulum newAngle w1)
  end.

Definition handleCanvasMouseMove (fuel : nat) (mouseX mouseY : R) (w : World)
  : option World :=
  if negb (isDragging (dragState w)) then Some w
  else
    match simulationMode w with
    | spring => option_map snd (handleSpringDrag fuel mouseY w)
    | pendulum => option_map snd (handlePendulumDrag fuel mouseX mouseY w)
    end.

Definition handleCanvasMouseUp (w : World) : World :=
  if isDragging (dragState w) then
    setDragState
      (mkDragState false (wasRunning (dragState w))
         (massPosition (dragState w)) (massRadius (dragState w)))
      w
  else w.

(** ** The page as a transition system *)

(** The state of the page once [DOMContentLoaded] has run, for a canvas of
    the given size. *)
Definition initialWorld (width height : R) : World :=
  drawSpring 0
    (mkWorld spring
       (mkParams 1 40 (15 / 100) (15 / 10) 10 (98 / 10) 0)
       (mkSimulation 0 false None 0 1)
       (fun _ => true)
       (mkDragState false false (mkPoint 0 0) 25)
       (mkGraphData [] [] [] 500 5)
       (mkHost width height [] 1 0)).

(** One user action or one delivered animation frame. *)
Inductive step : World -> World -> Prop :=
| step_start : forall w, step w (startSimulation w)
| step_pause : forall w, step w (pauseSimulation w)
| step_reset : forall w, step w (resetSimulation w)
| step_mode : forall mode w, step w (switchMode mode w)
| step_slider : forall k v w, step w (sliderInput k v w)
| step_manual : forall k v w, step w (manualInput k v w)
| step_frame : forall id timestamp w,
    In id (frameRequests (host w)) ->
    step w (deliverFrame id timestamp w)
| step_mouseDown : forall mouseX mouseY w,
    step w (handleCanvasMouseDown mouseX mouseY w)
| step_mouseMove : forall fuel mouseX mouseY w w',
    handleCanvasMouseMove fuel mouseX mouseY w = Some w' ->
    step w w'
| step_mouseUp : forall w, step w (handleCanvasMouseUp w).

(** The states the page can be in. *)
Inductive reachable (width height : R) : World -> Prop :=
| reachable_initial : reachable width height (initialWorld width height)
| reachable_step : forall w w',
    reachable width height w -> step w w' -> reachable width height w'.

(** ** The sample buffer as seen by its callers *)

(** The arguments of one [addDataPoint] call. *)
Record Sample : Type := mkSample {
  sampleTime : R;
  samplePosition : R;
  sampleVelocity : R;
  sampleAcceleration : R
}.

Definition append (w : World) (s : Sample) : World :=
  addDataPoint (sampleTime s) (samplePosition s) (sampleVelocity s)
    (sampleAcceleration s) w.

Definition appendAll (samples : list Sample) (w : World) : World :=
  fold_left append samples w.

(** The point that [addDataPoint] pushes into each series. *)
Definition positionPoint (m : SimulationMode) (s : Sample) : Point :=
  mkPoint (sampleTime s)
    match m with
    | pendulum => samplePosition s * 180 / PI
    | spring => samplePosition s
    end.

Definition velocityPoint (s : Sample) : Point :=
  mkPoint (sampleTime s) (sampleVelocity s).

Definition accelerationPoint (s : Sample) : Point :=
  mkPoint (sampleTime s) (sampleAcceleration s).

(** The series hold exactly the points of the samples [kept]. *)
Definition holds (w : World) (kept : list Sample) : Prop :=
  position (graphData w) = map (positionPoint (simulationMode w)) kept /\
  velocity (graphData w) = map velocityPoint kept /\
  acceleration (graphData w) = map accelerationPoint kept.

(** The three series are parallel: same length, same times. *)
Definition parallel (g : GraphData) : Prop :=
  map x (position g) = map x (velocity g) /\
  map x (velocity g) = map x (acceleration g).

(** ** Derived values shown to the user *)

(** What [updateCalculatedValues] computes, before the numbers are formatted
    into the page. *)
Record CalculatedValues : Type := mkCalculatedValues {
  calc_omega : R;
  calc_period : R;
  calc_frequency : R;
  calc_vmax : R;
  calc_amax : R;
  calc_energy : R
}.

Definition updateCalculatedValues (w : World) : CalculatedValues :=
  let omega := calculateOmega w in
  let period := calculatePeriod w in
  let frequency := calculateFrequency w in
  let A := getAmplitude w in
  let vMax := A * omega in
  let aMax := A * omega * omega in
  let energy :=
    match simulationMode w with
    | spring =>
        5 / 10 * springConstant (params w) * amplitude (params w) *
        amplitude (params w)
    | pendulum =>
        let theta0 := pendulumAngle (params w) * PI / 180 in
        5 / 10 * gravity (params w) * pendulumLength (params w) * theta0 *
        theta0
    end in
  mkCalculatedValues omega period frequency vMax aMax energy.

(** [params[k]]. *)
Definition getParam (k : ParamKey) (p : Params) : R :=
  match k with
  | key_mass => mass p
  | key_springConstant => springConstant p
  | key_amplitude => amplitude p
  | key_pendulumLength => pendulumLength p
  | key_pendulumAngle => pendulumAngle p
  | key_gravity => gravity p
  | key_phase => phase p
  end.

(** ** Charts *)

Definition MAX_AMPLITUDE_SPRING : R := 50 / 100.

Definition MAX_AMPLITUDE_PENDULUM : R := 15 * PI / 180.

(** What [updateChart] writes into a chart: the data set, the three
    key-point data sets and the two axis ranges. *)
Record Chart : Type := mkChart {
  chartData : list Point;
  chartKeyPoints : KeyPoints;
  xAxisMin : R;
  xAxisMax : R;
  yAxisMin : R;
  yAxisMax : R
}.

(** The time window that [updateChart] shows. *)
Definition chartWindow (w : World) : R * R :=
  let currentTime := time (simulation w) in
  if Rleb currentTime (timeWindow (graphData w))
  then (0, timeWindow (graphData w))
  else (currentTime - timeWindow (graphData w), currentTime).

(** [updateChart(chart, data, maxYValue, type)], with all it writes. *)
Definition renderChart (w : World) (data : list Point) (maxYValue : R)
  (type : ChartType) : Chart :=
  let '(minTime, maxTime) := chartWindow w in
  let keyPoints := calculateKeyPoints w minTime maxTime type in
  mkChart (map (fun point => mkPoint (x point) (y point)) data) keyPoints
    minTime maxTime (- maxYValue) maxYValue.

(** [drawAllGraphs()]: the position, velocity and acceleration charts. *)
Definition drawAllGraphs (w : World) : Chart * Chart * Chart :=
  let omega := calculateOmega w in
  let maxAmp :=
    match simulationMode w with
    | spring => MAX_AMPLITUDE_SPRING
    | pendulum => MAX_AMPLITUDE_PENDULUM
    end in
  let maxPosition :=
    match simulationMode w with
    | pendulum => (maxAmp * 180 / PI) * (11 / 10)
    | spring => maxAmp * (11 / 10)
    end in
  let maxVelocity := maxAmp * omega * (11 / 10) in
  let maxAcceleration := maxAmp * omega * omega * (11 / 10) in
  (renderChart w (position (graphData w)) maxPosition type_position,
   renderChart w (velocity (graphData w)) maxVelocity type_velocity,
   renderChart w (acceleration (graphData w)) maxAcceleration
     type_acceleration).

(** The value that a frame at time [t] pushes into the series of a chart:
    the position (in degrees for the pendulum), the velocity or the
    acceleration. *)
Definition plottedValue (w : World) (type : ChartType) (t : R) : R :=
  match type with
  | type_position =>
      match simulationMode w with
      | pendulum => calculatePosition w t * 180 / PI
      | spring => calculatePosition w t
      end
  | type_velocity => calculateVelocity w t
  | type_acceleration => calculateAcceleration w t
  end.

(** The series of a chart. *)
Definition seriesOf (w : World) (type : ChartType) : list Point :=
  match type with
  | type_position => position (graphData w)
  | type_velocity => velocity (graphData w)
  | type_acceleration => acceleration (graphData w)
  end.

(** Every buffered sample lies on the analytic curve of its chart. *)
Definition onCurve (w : World) : Prop :=
  forall type : ChartType,
    Forall (fun p => y p = plottedValue w type (x p)) (seriesOf w type).

(** The candidate times of iteration [n] of [calculateKeyPoints]:
    [tMax], [tMin], [tZero1], [tZero2]. *)
Definition candidateTimes (w : World) (type : ChartType) (n : Z)
  : R * R * R * R :=
  let omega := calculateOmega w in
  let phi := phase (params w) in
  match type with
  | type_position =>
      ((2 * PI * IZR n - phi) / omega,
       ((2 * IZR n + 1) * PI - phi) / omega,
       (PI / 2 + 2 * PI * IZR n - phi) / omega,
       (3 * PI / 2 + 2 * PI * IZR n - phi) / omega)
  | type_velocity =>
      ((3 * PI / 2 + 2 * PI * IZR n - phi) / omega,
       (PI / 2 + 2 * PI * IZR n - phi) / omega,
       (2 * PI * IZR n - phi) / omega,
       (PI + 2 * PI * IZR n - phi) / omega)
  | type_acceleration =>
      (((2 * IZR n + 1) * PI - phi) / omega,
       (2 * PI * IZR n - phi) / omega,
       (PI / 2 + 2 * PI * IZR n - phi) / omega,
       (3 * PI / 2 + 2 * PI * IZR n - phi) / omega)
  end.

(** The ordinates [yMax], [yMin] given to the maxima and minima. *)
Definition extremeValues (w : World) (type : ChartType) : R * R :=
  let omega := calculateOmega w in
  let A := getAmplitude w in
  match type with
  | type_position =>
      match simulationMode w with
      | pendulum => (A * 180 / PI, - A * 180 / PI)
      | spring => (A, - A)
      end
  | type_velocity => (A * omega, - A * omega)
  | type_acceleration => (A * omega * omega, - A * omega * omega)
  end.

(** ** Runs of frames *)

(** The frame callback run at each of the timestamps in turn. *)
Definition runFrames (timestamps : list R) (w : World) : World :=
  fold_left (fun w' timestamp => animate timestamp w') timestamps w.

(** The frame scheduler and the simulation agree: while running, the one
    pending request is the one recorded in [animationId]; otherwise nothing
    is pending and no handle is recorded. *)
Definition schedulerInvariant (w : World) : Prop :=
  (1 <= nextRequestId (host w))%nat /\
  if isRunning (simulation w)
  then exists id : nat,
    animationId (simulation w) = Some id /\
    frameRequests (host w) = [id] /\
    (1 <= id < nextRequestId (host w))%nat
  else animationId (simulation w) = None /\ frameRequests (host w) = [].

(** ** What the drag handlers paint *)

(** The clamped displacement (pixels) that [handleSpringDrag] paints. *)
Definition springDragDisplacement (mouseY : R) (w : World) : R :=
  let height := canvasHeight (host w) in
  let equilibriumY := height / 2 in
  let newDisplacement := mouseY - equilibriumY in
  let maxDisplacementPixels := amplitude (params w) * PIXELS_PER_METER in
  Rmax (- maxDisplacementPixels) (Rmin maxDisplacementPixels newDisplacement).

(** The clamped angle (radians) that [handlePendulumDrag] paints. *)
Definition pendulumDragAngle (mouseX mouseY : R) (w : World) : R :=
  let width := canvasWidth (host w) in
  let pivotX := width / 2 in
  let pivotY := 50 in
  let dx := mouseX - pivotX in
  let dy := mouseY - pivotY in
  let newAngle := atan2 dx dy in
  let maxAngle := pendulumAngle (params w) * PI / 180 in
  Rmax (- maxAngle) (Rmin maxAngle newAngle).

(** ** The internal time of the drag handlers as a JavaScript number *)

(** The real division of [handleSpringDrag] and [handlePendulumDrag] stands
    for the division of the code when the amplitude is not zero. The
    definitions below follow the same lines of the code and keep the zero
    amplitude apart, where the code divides zero by zero. The angular
    frequency they divide by is taken non-zero. *)





(** ** Names for the pieces of the key-point loop and of the charts *)

(** The four candidate times of iteration [n], one by one. *)
Definition tMaxOf (w : World) (type : ChartType) (n : Z) : R :=
  fst (fst (fst (candidateTimes w type n))).

Definition tMinOf (w : World) (type : ChartType) (n : Z) : R :=
  snd (fst (fst (candidateTimes w type n))).

Definition tZero1Of (w : World) (type : ChartType) (n : Z) : R :=
  snd (fst (candidateTimes w type n)).

Definition tZero2Of (w : World) (type : ChartType) (n : Z) : R :=
  snd (candidateTimes w type n).

(** The chart of a signal among the three of [drawAllGraphs]. *)
Definition chartOf (charts : Chart * Chart * Chart) (type : ChartType)
  : Chart :=
  match type with
  | type_position => fst (fst charts)
  | type_velocity => snd (fst charts)
  | type_acceleration => snd charts
  end.

(** The points that iteration [n] of the loop contributes to each list. *)
Definition maximaOf (w : World) (minTime maxTime : R) (type : ChartType)
  (n : Z) : list Point :=
  pushIf (visibleAndOccurred w minTime maxTime (tMaxOf w type n))
    (mkPoint (tMaxOf w type n) (fst (extremeValues w type))) [].

Definition minimaOf (w : World) (minTime maxTime : R) (type : ChartType)
  (n : Z) : list Point :=
  pushIf (visibleAndOccurred w minTime maxTime (tMinOf w type n))
    (mkPoint (tMinOf w type n) (snd (extremeValues w type))) [].

Definition zerosOf (w : World) (minTime maxTime : R) (type : ChartType)
  (n : Z) : list Point :=
  pushIf (visibleAndOccurred w minTime maxTime (tZero2Of w type n))
    (mkPoint (tZero2Of w type n) 0)
    (pushIf (visibleAndOccurred w minTime maxTime (tZero1Of w type n))
       (mkPoint (tZero1Of w type n) 0) []).

(** ** The earlier version of the script *)

(** The functions of the earlier version of the script (no validation
    state, no drag, positions plotted in radians) that differ from the
    current ones. *)
Module Legacy.

(** [startSimulation()] without the validation gate. *)
Definition startSimulation (w : World) : World :=
  if negb (isRunning (simulation w)) then
    let '(id, h) := requestAnimationFrame (host w) in
    setHost h
      (setSimulation
         (setAnimationId (Some id)
            (setLastTimestamp 0 (setIsRunning true (simulation w))))
         w)
  else w.

(** [addDataPoint] pushing the position as it is, in either mode. *)
Definition addDataPoint (time position_ velocity_ acceleration_ : R)
  (w : World) : World :=
  let g := graphData w in
  let pos := position g ++ [mkPoint time position_] in
  let vel := velocity g ++ [mkPoint time velocity_] in
  let acc := acceleration g ++ [mkPoint time acceleration_] in
  let minTime := time - timeWindow g - 5 / 10 in
  let '(pos', vel', acc') := evictOld minTime pos vel acc in
  setGraphData (mkGraphData pos' vel' acc' (maxPoints g) (timeWindow g)) w.

End Legacy.

(** * Properties *)

(** ** Boolean comparisons *)

Lemma Rleb_true (a b : R) : Rleb a b = true <-> a <= b.
Proof. unfold Rleb. destruct (Rle_dec a b); split; auto; discriminate. Qed.

Lemma Rleb_false (a b : R) : Rleb a b = false <-> b < a.
Proof.
  unfold Rleb. destruct (Rle_dec a b); split; intros; try discriminate;
    try lra; auto.
Qed.

Lemma Rltb_true (a b : R) : Rltb a b = true <-> a < b.
Proof. unfold Rltb. destruct (Rlt_dec a b); split; auto; discriminate. Qed.

Lemma Rltb_false (a b : R) : Rltb a b = false <-> b <= a.
Proof.
  unfold Rltb. destruct (Rlt_dec a b); split; intros; try discriminate;
    try lra; auto.
Qed.

(** Decide the comparisons of concrete numbers that occur in the goal. *)
Ltac decide_comparisons :=
  repeat
    match goal with
    | |- context [Rltb ?a ?b] =>
        first [ replace (Rltb a b) with true
                  by (symmetry; apply Rltb_true; lra)
              | replace (Rltb a b) with false
                  by (symmetry; apply Rltb_false; lra) ]
    | |- context [Rleb ?a ?b] =>
        first [ replace (Rleb a b) with true
                  by (symmetry; apply Rleb_true; lra)
              | replace (Rleb a b) with false
                  by (symmetry; apply Rleb_false; lra) ]
    end.

(** ** Kinematics evaluator *)

Lemma sqrt_div_pos (a b : R) : 0 < a -> 0 < b -> 0 < sqrt (a / b).
Proof.
  intros Ha Hb. apply sqrt_lt_R0. now apply Rdiv_lt_0_compat.
Qed.

Lemma calculateOmega_pos (w : World) :
  0 < mass (params w) -> 0 < springConstant (params w) ->
  0 < gravity (params w) -> 0 < pendulumLength (params w) ->
  0 < calculateOmega w.
Proof.
  intros Hm Hk Hg Hl. unfold calculateOmega.
  destruct (simulationMode w); now apply sqrt_div_pos.
Qed.

Lemma calculatePeriod_pos (w : World) :
  0 < calculateOmega w -> 0 < calculatePeriod w.
Proof.
  intros Hw. unfold calculatePeriod.
  apply Rdiv_lt_0_compat; [ pose proof PI_RGT_0; lra | exact Hw ].
Qed.

Lemma initialWorld_omega_pos (width height : R) :
  0 < calculateOmega (initialWorld width height).
Proof.
  apply calculateOmega_pos; simpl; lra.
Qed.

(** C1: with positive mass, spring constant, gravity and pendulum length,
    the evaluator returns, in either mode and at every time, the angular
    frequency, amplitude, position, velocity and acceleration given by the
    closed-form formulas of the specification; the angular frequency is
    then a positive real. *)
Theorem C1_kinematics_closed_form (w : World) (t : R) :
  0 < mass (params w) -> 0 < springConstant (params w) ->
  0 < gravity (params w) -> 0 < pendulumLength (params w) ->
  calculateOmega w = KinematicsSpec.omega (simulationMode w) (params w) /\
  getAmplitude w = KinematicsSpec.A (simulationMode w) (params w) /\
  calculatePosition w t =
    KinematicsSpec.position (simulationMode w) (params w) t /\
  calculateVelocity w t =
    KinematicsSpec.velocity (simulationMode w) (params w) t /\
  calculateAcceleration w t =
    KinematicsSpec.acceleration (simulationMode w) (params w) t /\
  0 < calculateOmega w.
Proof.
  intros Hm Hk Hg Hl.
  assert (Ho : calculateOmega w =
               KinematicsSpec.omega (simulationMode w) (params w))
    by reflexivity.
  assert (Ha : getAmplitude w =
               KinematicsSpec.A (simulationMode w) (params w))
    by reflexivity.
  split; [ exact Ho | ]. split; [ exact Ha | ].
  split; [ reflexivity | ]. split; [ | split ].
  - unfold calculateVelocity, KinematicsSpec.velocity.
    cbv zeta. rewrite Ho, Ha. ring.
  - unfold calculateAcceleration, KinematicsSpec.acceleration.
    cbv zeta. rewrite Ho, Ha. unfold Rsqr. ring.
  - now apply calculateOmega_pos.
Qed.

Lemma C1_kinematics_closed_form_witness :
  calculateOmega (initialWorld 400 500) = sqrt (40 / 1) /\
  calculatePosition (switchMode pendulum (initialWorld 400 500)) 2 =
    KinematicsSpec.position pendulum (params (initialWorld 400 500)) 2.
Proof.
  split.
  - apply (C1_kinematics_closed_form (initialWorld 400 500) 0); simpl; lra.
  - apply (C1_kinematics_closed_form
             (switchMode pendulum (initialWorld 400 500)) 2); simpl; lra.
Defined.

(** C5: in either mode and at every time, the acceleration equals minus the
    square of the mode's angular frequency times the position. *)
Theorem C5_acceleration_is_restoring (w : World) (t : R) :
  calculateAcceleration w t = - (calculateOmega w)² * calculatePosition w t.
Proof.
  unfold calculateAcceleration, calculatePosition, Rsqr. ring.
Qed.

(** C6: when the amplitude [A] and the angular frequency [omega] are
    positive, position²/A² + velocity²/(A·omega)² = 1 at every time, exactly
    over the reals. *)
Theorem C6_energy_conservation (w : World) (t : R) :
  0 < getAmplitude w ->
  0 < calculateOmega w ->
  (calculatePosition w t)² / (getAmplitude w)² +
  (calculateVelocity w t)² / (getAmplitude w * calculateOmega w)² = 1.
Proof.
  intros HA Hw.
  unfold calculatePosition, calculateVelocity.
  set (A := getAmplitude w) in *.
  set (om := calculateOmega w) in *.
  set (th := om * t + phase (params w)).
  pose proof (sin2_cos2 th) as Hsc.
  unfold Rsqr in *.
  replace (A * cos th * (A * cos th) / (A * A) +
           - A * om * sin th * (- A * om * sin th) / (A * om * (A * om)))
    with (sin th * sin th + cos th * cos th).
  - exact Hsc.
  - field. split; lra.
Qed.

Lemma C6_energy_conservation_witness :
  (calculatePosition (initialWorld 400 500) 3)² /
    (getAmplitude (initialWorld 400 500))² +
  (calculateVelocity (initialWorld 400 500) 3)² /
    (getAmplitude (initialWorld 400 500) *
     calculateOmega (initialWorld 400 500))²
  = 1.
Proof.
  apply (C6_energy_conservation (initialWorld 400 500) 3).
  - unfold getAmplitude. simpl. lra.
  - apply initialWorld_omega_pos.
Defined.

(** ** Start gate *)

Lemma hasErrors_true (w : World) :
  hasErrors w = true <-> exists k, validationState w k = false.
Proof.
  unfold hasErrors. rewrite existsb_exists. split.
  - intros [b [Hin Hb]]. apply in_map_iff in Hin as [k [Hk _]].
    exists k. rewrite Hk. now destruct b.
  - intros [k Hk]. exists (validationState w k). split.
    + apply in_map. destruct k; simpl; tauto.
    + now rewrite Hk.
Qed.

Lemma hasErrors_false (w : World) :
  hasErrors w = false <-> forall k, validationState w k = true.
Proof.
  split.
  - intros H k. destruct (validationState w k) eqn:E; [ reflexivity | ].
    assert (hasErrors w = true) by (apply hasErrors_true; now exists k).
    congruence.
  - intros H. destruct (hasErrors w) eqn:E; [ | reflexivity ].
    apply hasErrors_true in E as [k Hk]. rewrite H in Hk. discriminate.
Qed.

(** With every field valid and the simulation not running, [start] enters
    the running state, zeroes [lastTimestamp] and requests one frame. *)
Lemma startSimulation_starts (w : World) :
  hasErrors w = false ->
  isRunning (simulation w) = false ->
  isRunning (simulation (startSimulation w)) = true /\
  lastTimestamp (simulation (startSimulation w)) = 0 /\
  time (simulation (startSimulation w)) = time (simulation w) /\
  timeScale (simulation (startSimulation w)) = timeScale (simulation w) /\
  animationId (simulation (startSimulation w)) =
    Some (nextRequestId (host w)) /\
  frameRequests (host (startSimulation w)) =
    frameRequests (host w) ++ [nextRequestId (host w)].
Proof.
  intros He Hr. unfold startSimulation. rewrite He, Hr. simpl. tauto.
Qed.

(** C4: when at least one parameter field is marked invalid, [start] leaves
    the [simulation] object as it was (in particular [isRunning] stays
    false if it was false, and the clock does not move), requests no
    animation frame, and changes nothing but the count of console
    warnings. *)
Theorem C4_start_with_invalid_field_is_noop (w : World) (k : ParamKey) :
  validationState w k = false ->
  simulation (startSimulation w) = simulation w /\
  (isRunning (simulation w) = false ->
   isRunning (simulation (startSimulation w)) = false) /\
  frameRequests (host (startSimulation w)) = frameRequests (host w) /\
  nextRequestId (host (startSimulation w)) = nextRequestId (host w) /\
  startSimulation w = setHost (consoleWarn (host w)) w.
Proof.
  intros Hk.
  assert (He : hasErrors w = true) by (apply hasErrors_true; now exists k).
  unfold startSimulation. rewrite He. simpl. tauto.
Qed.

Lemma C4_start_with_invalid_field_is_noop_witness :
  let w := manualInput key_mass (Some 7) (initialWorld 400 500) in
  validationState w key_mass = false /\
  simulation (startSimulation w) = simulation w /\
  frameRequests (host (startSimulation w)) = [].
Proof.
  assert (Hk : validationState
                 (manualInput key_mass (Some 7) (initialWorld 400 500))
                 key_mass = false).
  { unfold manualInput, validateAndUpdate. simpl fst. simpl snd.
    decide_comparisons. reflexivity. }
  cbv zeta. split; [ exact Hk | ].
  pose proof (C4_start_with_invalid_field_is_noop _ _ Hk) as [Hs [_ [Hf _]]].
  split; [ exact Hs | ]. rewrite Hf.
  unfold manualInput, validateAndUpdate. simpl fst. simpl snd.
  decide_comparisons. reflexivity.
Defined.

(** ** Frame conditions of the operations *)

Lemma addDataPoint_frame (t p v a : R) (w : World) :
  simulationMode (addDataPoint t p v a w) = simulationMode w /\
  params (addDataPoint t p v a w) = params w /\
  simulation (addDataPoint t p v a w) = simulation w /\
  dragState (addDataPoint t p v a w) = dragState w /\
  host (addDataPoint t p v a w) = host w /\
  timeWindow (graphData (addDataPoint t p v a w)) = timeWindow (graphData w).
Proof.
  unfold addDataPoint.
  destruct (evictOld _ _ _ _) as [[pos' vel'] acc']. simpl. tauto.
Qed.

Lemma draw_frame (w : World) (d : R) :
  let w' := match simulationMode w with
            | spring => drawSpring (d * PIXELS_PER_METER) w
            | pendulum => drawPendulum d w
            end in
  simulation w' = simulation w /\ host w' = host w /\
  graphData w' = graphData w /\ simulationMode w' = simulationMode w.
Proof.
  destruct (simulationMode w) eqn:E; simpl; rewrite ?E; tauto.
Qed.

(** The clock after a frame tick of a running simulation. *)
Lemma animate_simulation (w : World) (timestamp : R) :
  isRunning (simulation w) = true ->
  let last :=
    if Req_dec_T (lastTimestamp (simulation w)) 0 then timestamp
    else lastTimestamp (simulation w) in
  time (simulation (animate timestamp w)) =
    time (simulation w) +
    Rmin ((timestamp - last) / 1000) (1 / 10) * timeScale (simulation w) /\
  lastTimestamp (simulation (animate timestamp w)) = timestamp /\
  timeScale (simulation (animate timestamp w)) = timeScale (simulation w) /\
  isRunning (simulation (animate timestamp w)) = true.
Proof.
  intros Hr. unfold animate. rewrite Hr. cbv zeta. simpl negb. cbv iota.
  match goal with
  | |- context [addDataPoint ?t ?p ?v ?a ?w1] =>
      pose proof (addDataPoint_frame t p v a w1) as [Hm [_ [Hs [_ [Hh _]]]]];
      set (w2 := addDataPoint t p v a w1) in *
  end.
  match goal with
  | |- context [match simulationMode w2 with
                | spring => drawSpring (?d * PIXELS_PER_METER) w2
                | pendulum => drawPendulum ?d w2
                end] =>
      pose proof (draw_frame w2 d) as Hd; cbv zeta in Hd;
      destruct Hd as [Hs3 [Hh3 _]];
      set (w3 := match simulationMode w2 with
                 | spring => drawSpring (d * PIXELS_PER_METER) w2
                 | pendulum => drawPendulum d w2
                 end) in *
  end.
  unfold requestAnimationFrame. simpl.
  rewrite Hs3, Hs. simpl.
  destruct (Req_dec_T (lastTimestamp (simulation w)) 0); simpl;
    rewrite Hr; tauto.
Qed.

(** ** Frame tick *)

Lemma Rmin_clamp_le (d s : R) : 0 <= s -> Rmin d (1 / 10) * s <= 1 / 10 * s.
Proof.
  intros Hs. apply Rmult_le_compat_r; [ exact Hs | apply Rmin_r ].
Qed.

(** C8, with the timestamps in milliseconds: on a frame tick of a running
    simulation whose [lastTimestamp] is already seeded (non-zero), the
    elapsed time advances by exactly
    min((timestamp - lastTimestamp) / 1000, 0.1) · timeScale; the advance is
    at most 0.1 · timeScale when timeScale is not negative; [lastTimestamp]
    becomes the tick's timestamp; and on a tick that finds [lastTimestamp]
    at 0, as the first tick after a start does, [lastTimestamp] is seeded
    from the tick and the elapsed time does not advance. *)
Theorem C8_frame_tick_advance (w : World) (timestamp : R) :
  isRunning (simulation w) = true ->
  lastTimestamp (simulation (animate timestamp w)) = timestamp /\
  (lastTimestamp (simulation w) <> 0 ->
   time (simulation (animate timestamp w)) =
     time (simulation w) +
     Rmin ((timestamp - lastTimestamp (simulation w)) / 1000) (1 / 10) *
     timeScale (simulation w)) /\
  (0 <= timeScale (simulation w) ->
   time (simulation (animate timestamp w)) - time (simulation w) <=
     1 / 10 * timeScale (simulation w)) /\
  (lastTimestamp (simulation w) = 0 ->
   time (simulation (animate timestamp w)) = time (simulation w)) /\
  (forall w0 : World,
     w = startSimulation w0 -> isRunning (simulation w0) = false ->
     lastTimestamp (simulation w) = 0 /\
     time (simulation (animate timestamp w)) = time (simulation w0)).
Proof.
  intros Hr.
  pose proof (animate_simulation w timestamp Hr) as Ha. cbv zeta in Ha.
  destruct Ha as [Ht [Hl _]].
  assert (Hzero : lastTimestamp (simulation w) = 0 ->
                  time (simulation (animate timestamp w)) =
                  time (simulation w)).
  { intros H0. rewrite Ht.
    destruct (Req_dec_T (lastTimestamp (simulation w)) 0); [ | contradiction ].
    replace ((timestamp - timestamp) / 1000) with 0 by field.
    rewrite Rmin_left by lra. ring. }
  split; [ exact Hl | ]. split; [ | split; [ | split ] ].
  - intros Hne. rewrite Ht.
    destruct (Req_dec_T (lastTimestamp (simulation w)) 0);
      [ contradiction | reflexivity ].
  - intros Hs. rewrite Ht.
    match goal with
    | |- _ + Rmin ?d _ * _ - _ <= _ => pose proof (Rmin_clamp_le d _ Hs)
    end.
    lra.
  - exact Hzero.
  - intros w0 Hw0 Hr0.
    destruct (hasErrors w0) eqn:He.
    + exfalso. subst w. unfold startSimulation in Hr. rewrite He in Hr.
      simpl in Hr. congruence.
    + destruct (startSimulation_starts w0 He Hr0) as [_ [Hl0 [Ht0 _]]].
      rewrite <- Hw0 in Hl0, Ht0. split; [ exact Hl0 | ].
      rewrite <- Ht0. now apply Hzero.
Qed.

Lemma C8_frame_tick_advance_witness :
  let w := startSimulation (initialWorld 400 500) in
  isRunning (simulation w) = true /\
  lastTimestamp (simulation (animate 1000 w)) = 1000 /\
  time (simulation (animate 1000 w)) = time (simulation (initialWorld 400 500)).
Proof.
  cbv zeta.
  assert (Hr : isRunning (simulation (startSimulation (initialWorld 400 500)))
               = true) by reflexivity.
  split; [ exact Hr | ].
  pose proof (C8_frame_tick_advance
                (startSimulation (initialWorld 400 500)) 1000 Hr)
    as [Hl [_ [_ [_ Hs]]]].
  split; [ exact Hl | ].
  apply (Hs (initialWorld 400 500)); reflexivity.
Defined.

(** C8, as stated, fails: after a start and a first tick at 1000 ms, the
    tick at 1016 ms advances the elapsed time by 0.016, not by
    min(1016 - 1000, 0.1) · timeScale = 0.1. *)
Lemma C8_counterexample :
  let w := animate 1000 (startSimulation (initialWorld 400 500)) in
  isRunning (simulation w) = true /\
  lastTimestamp (simulation w) = 1000 /\
  timeScale (simulation w) = 1 /\
  time (simulation (animate 1016 w)) - time (simulation w) = 16 / 1000 /\
  time (simulation (animate 1016 w)) <>
    time (simulation w) +
    Rmin (1016 - lastTimestamp (simulation w)) (1 / 10) *
    timeScale (simulation w).
Proof.
  cbv zeta.
  assert (Hr0 : isRunning (simulation (startSimulation (initialWorld 400 500)))
                = true) by reflexivity.
  pose proof (animate_simulation _ 1000 Hr0) as H1. cbv zeta in H1.
  destruct H1 as [_ [Hl1 [Hs1 Hr1]]].
  set (w := animate 1000 (startSimulation (initialWorld 400 500))) in *.
  assert (Hs : timeScale (simulation w) = 1) by (rewrite Hs1; reflexivity).
  pose proof (animate_simulation w 1016 Hr1) as H2. cbv zeta in H2.
  destruct H2 as [Ht2 _].
  rewrite Hl1, Hs in Ht2.
  destruct (Req_dec_T 1000 0) as [Habs | _]; [ lra | ].
  rewrite Rmin_left in Ht2 by lra.
  repeat split; try assumption.
  - rewrite Ht2. field.
  - rewrite Ht2, Hl1, Hs. rewrite Rmin_right by lra. lra.
Qed.

(** ** Key-point annotator *)

Lemma visibleAndOccurred_true (w : World) (minTime maxTime t : R) :
  visibleAndOccurred w minTime maxTime t = true <->
  minTime <= t /\ t <= maxTime /\ t <= time (simulation w).
Proof.
  unfold visibleAndOccurred.
  rewrite !andb_true_iff, !Rleb_true. tauto.
Qed.

Lemma pushIf_Forall (P : Point -> Prop) (c : bool) (p : Point)
  (l : list Point) :
  Forall P l -> (c = true -> P p) -> Forall P (pushIf c p l).
Proof.
  intros Hl Hp. unfold pushIf. destruct c; [ | exact Hl ].
  apply Forall_app. split; [ exact Hl | ].
  constructor; [ now apply Hp | constructor ].
Qed.

Section KeyPointInvariant.

Variable w : World.
Variables minTime maxTime : R.
Variable type : ChartType.

(** A property that every pushed point has. *)
Variable P : Point -> Prop.
Hypothesis P_pushed : forall t v : R,
  visibleAndOccurred w minTime maxTime t = true -> P (mkPoint t v).

Lemma keyPointsIteration_invariant (acc : KeyPoints) (n : Z) :
  allKeyPoints P acc ->
  allKeyPoints P (keyPointsIteration w minTime maxTime type acc n).
Proof.
  intros [Hmax [Hmin Hzero]].
  unfold allKeyPoints, keyPointsIteration.
  destruct type; cbv zeta iota; simpl maximos; simpl minimos; simpl ceros;
    repeat split; repeat apply pushIf_Forall; auto.
Qed.

Lemma keyPointsLoop_invariant (ns : list Z) (acc : KeyPoints) :
  allKeyPoints P acc ->
  allKeyPoints P
    (fold_left (keyPointsIteration w minTime maxTime type) ns acc).
Proof.
  revert acc. induction ns as [| n ns IH]; intros acc Hacc; simpl.
  - exact Hacc.
  - apply IH. now apply keyPointsIteration_invariant.
Qed.

Lemma calculateKeyPoints_invariant :
  allKeyPoints P (calculateKeyPoints w minTime maxTime type).
Proof.
  unfold calculateKeyPoints. apply keyPointsLoop_invariant.
  repeat split; constructor.
Qed.

End KeyPointInvariant.

(** C2: for every window, signal kind and current time, no maximum, minimum
    or zero-crossing returned by [calculateKeyPoints] has a time after the
    current simulation time. *)
Theorem C2_key_points_have_occurred (w : World) (minTime maxTime : R)
  (type : ChartType) :
  Forall (fun p => x p <= time (simulation w))
    (maximos (calculateKeyPoints w minTime maxTime type)) /\
  Forall (fun p => x p <= time (simulation w))
    (minimos (calculateKeyPoints w minTime maxTime type)) /\
  Forall (fun p => x p <= time (simulation w))
    (ceros (calculateKeyPoints w minTime maxTime type)).
Proof.
  apply calculateKeyPoints_invariant.
  intros t v Hv. apply visibleAndOccurred_true in Hv. simpl. tauto.
Qed.

Lemma Forall_False_nil (l : list Point) : Forall (fun _ => False) l -> l = [].
Proof.
  destruct l as [| p l]; [ reflexivity | ]. intros H. now inversion H.
Qed.

(** C9: with a positive angular frequency and [minTime > maxTime],
    [calculateKeyPoints] returns three empty lists. *)
Theorem C9_empty_window_no_key_points (w : World) (minTime maxTime : R)
  (type : ChartType) :
  0 < calculateOmega w ->
  maxTime < minTime ->
  calculateKeyPoints w minTime maxTime type = mkKeyPoints [] [] [].
Proof.
  intros _ Hlt.
  pose proof (calculateKeyPoints_invariant w minTime maxTime type
                (fun _ => False)) as H.
  destruct H as [Hmax [Hmin Hzero]].
  - intros t _ Hv. apply visibleAndOccurred_true in Hv. lra.
  - apply Forall_False_nil in Hmax, Hmin, Hzero.
    destruct (calculateKeyPoints w minTime maxTime type) as [a b c].
    simpl in *. now subst.
Qed.

Lemma C9_empty_window_no_key_points_witness :
  calculateKeyPoints (initialWorld 400 500) 3 2 type_velocity =
  mkKeyPoints [] [] [].
Proof.
  apply (C9_empty_window_no_key_points (initialWorld 400 500) 3 2
           type_velocity).
  - apply initialWorld_omega_pos.
  - lra.
Defined.

(** ** Drag back-solve *)

(** Two tests of the loop condition are enough when the starting value is
    at least minus one period. *)
Lemma normalizeInternalTime_two (fuel : nat) (period t0 : R) :
  (2 <= fuel)%nat ->
  - period <= t0 ->
  normalizeInternalTime fuel period t0 =
  Some (if Rltb t0 0 then t0 + period else t0).
Proof.
  intros Hf Hlo.
  destruct fuel as [| [| fuel]]; try lia. simpl.
  destruct (Rltb t0 0) eqn:E0; [ | reflexivity ].
  replace (Rltb (t0 + period) 0) with false; [ reflexivity | ].
  symmetry. apply Rltb_false. lra.
Qed.


(** The back-solved time starts within one period of zero. *)
Lemma backSolve_range (w : World) (ratio : R) :
  0 <= phase (params w) <= 2 * PI ->
  0 < calculateOmega w ->
  - calculatePeriod w <=
    (acos ratio - phase (params w)) / calculateOmega w < calculatePeriod w.
Proof.
  intros [Hp0 Hp1] Hw.
  pose proof (acos_bound ratio) as [Ha0 Ha1].
  pose proof PI_RGT_0 as Hpi.
  unfold calculatePeriod, Rdiv.
  assert (Hi : 0 < / calculateOmega w) by now apply Rinv_0_lt_compat.
  set (i := / calculateOmega w) in *.
  set (a := acos ratio) in *. set (ph := phase (params w)) in *.
  assert (H1 : 0 <= (a - ph + 2 * PI) * i)
    by (apply Rmult_le_pos; lra).
  assert (H2 : 0 < (2 * PI - (a - ph)) * i)
    by (apply Rmult_lt_0_compat; lra).
  split; lra.
Qed.














(** ** Sample buffer: eviction *)

(** The eviction loop removes a prefix of samples older than [minTime] and
    stops at the first sample that is not. *)
Lemma evictOld_split (m : SimulationMode) (minTime : R) (l : list Sample) :
  exists evicted kept : list Sample,
    l = evicted ++ kept /\
    evictOld minTime (map (positionPoint m) l) (map velocityPoint l)
      (map accelerationPoint l) =
    (map (positionPoint m) kept, map velocityPoint kept,
     map accelerationPoint kept) /\
    Forall (fun s => sampleTime s < minTime) evicted /\
    (forall k rest, kept = k :: rest -> minTime <= sampleTime k).
Proof.
  induction l as [| s l IH].
  - exists [], []. simpl. repeat split; auto. intros; discriminate.
  - simpl. destruct (Rltb (sampleTime s) minTime) eqn:E.
    + destruct IH as [ev [kept [Hl [He [Hev Hk]]]]].
      exists (s :: ev), kept. repeat split; auto.
      * simpl. now rewrite Hl.
      * constructor; [ now apply Rltb_true | exact Hev ].
    + exists [], (s :: l). repeat split; auto.
      intros k rest Hk. injection Hk as <- _. now apply Rltb_false.
Qed.

Lemma append_split (w : World) (l : list Sample) (s : Sample) :
  holds w l ->
  exists evicted kept : list Sample,
    l ++ [s] = evicted ++ kept /\
    holds (append w s) kept /\
    Forall
      (fun e => sampleTime e < sampleTime s - timeWindow (graphData w) - 1 / 2)
      evicted /\
    (forall k rest,
       kept = k :: rest ->
       sampleTime s - timeWindow (graphData w) - 1 / 2 <= sampleTime k).
Proof.
  intros [Hp [Hv Ha]].
  destruct (evictOld_split (simulationMode w)
              (sampleTime s - timeWindow (graphData w) - 5 / 10) (l ++ [s]))
    as [ev [kept [Hl [He [Hev Hk]]]]].
  exists ev, kept. split; [ exact Hl | ].
  replace (1 / 2) with (5 / 10) by lra.
  split; [ | split; assumption ].
  unfold holds, append, addDataPoint. rewrite Hp, Hv, Ha.
  rewrite !map_app in He.
  replace (map (positionPoint (simulationMode w)) l ++
           [mkPoint (sampleTime s)
              match simulationMode w with
              | spring => samplePosition s
              | pendulum => samplePosition s * 180 / PI
              end])
    with (map (positionPoint (simulationMode w)) l ++
          map (positionPoint (simulationMode w)) [s])
    by (unfold positionPoint; simpl; destruct (simulationMode w); reflexivity).
  change [mkPoint (sampleTime s) (sampleVelocity s)]
    with (map velocityPoint [s]).
  change [mkPoint (sampleTime s) (sampleAcceleration s)]
    with (map accelerationPoint [s]).
  rewrite He. simpl. tauto.
Qed.

Lemma append_frame (w : World) (s : Sample) :
  simulationMode (append w s) = simulationMode w /\
  timeWindow (graphData (append w s)) = timeWindow (graphData w).
Proof.
  unfold append.
  pose proof (addDataPoint_frame (sampleTime s) (samplePosition s)
                (sampleVelocity s) (sampleAcceleration s) w).
  tauto.
Qed.

Lemma appendAll_frame (l : list Sample) (w : World) :
  simulationMode (appendAll l w) = simulationMode w /\
  timeWindow (graphData (appendAll l w)) = timeWindow (graphData w).
Proof.
  revert w. induction l as [| s l IH]; intros w; simpl.
  - tauto.
  - destruct (IH (append w s)) as [Hm Ht].
    destruct (append_frame w s) as [Hm' Ht'].
    unfold appendAll in *. simpl. rewrite Hm, Ht. tauto.
Qed.

Lemma appendAll_snoc (l : list Sample) (s : Sample) (w : World) :
  appendAll (l ++ [s]) w = append (appendAll l w) s.
Proof.
  unfold appendAll. now rewrite fold_left_app.
Qed.

(** Whatever the order of the times: the buffer holds a suffix of what was
    appended, and each evicted sample is older than the window of some
    appended sample. *)
Lemma appendAll_split (l : list Sample) (w : World) :
  holds w [] ->
  exists evicted kept : list Sample,
    l = evicted ++ kept /\
    holds (appendAll l w) kept /\
    Forall
      (fun e => exists s, In s l /\
         sampleTime e < sampleTime s - timeWindow (graphData w) - 1 / 2)
      evicted.
Proof.
  intros Hw. induction l as [| s l IH] using rev_ind.
  - exists [], []. split; [ reflexivity | split; [ exact Hw | constructor ] ].
  - destruct IH as [ev [kept [Hl [Hh Hev]]]].
    rewrite appendAll_snoc.
    destruct (append_split (appendAll l w) kept s Hh)
      as [ev2 [kept2 [Hl2 [Hh2 [Hev2 _]]]]].
    exists (ev ++ ev2), kept2. split; [ | split ].
    + rewrite <- app_assoc, <- Hl2, app_assoc, <- Hl. reflexivity.
    + exact Hh2.
    + apply Forall_app. split.
      * eapply Forall_impl; [ | exact Hev ].
        intros e [s' [Hin Hlt]]. exists s'. split; [ | exact Hlt ].
        apply in_or_app. now left.
      * eapply Forall_impl; [ | exact Hev2 ].
        intros e Hlt. exists s. split; [ apply in_or_app; right; now left | ].
        destruct (appendAll_frame l w) as [_ Ht]. now rewrite <- Ht.
Qed.

Lemma sorted_app_le (l1 l2 : list Sample) :
  Sorted Rle (map sampleTime (l1 ++ l2)) ->
  forall a b, In a l1 -> In b l2 -> sampleTime a <= sampleTime b.
Proof.
  intros H. apply Sorted_StronglySorted in H;
    [ | exact (fun a b c => Rle_trans a b c) ].
  induction l1 as [| s l1 IH]; simpl in *; [ contradiction | ].
  inversion H as [| t ts Hss Hall]; subst.
  intros a b [<- | Hin] Hb.
  - rewrite Forall_forall in Hall. apply Hall.
    apply in_map. apply in_or_app. now right.
  - now apply IH.
Qed.

(** C3: starting from empty series, after appends with non-decreasing times
    that end at time T, what the three series hold is a suffix of what was
    appended (eviction is from the front only, and the same in all three);
    every retained sample has time >= T - timeWindow - 0.5, and every
    evicted sample has time < T - timeWindow - 0.5 (no over-eviction). *)
Theorem C3_window_eviction (w : World) (samples : list Sample)
  (lastSample : Sample) :
  position (graphData w) = [] ->
  velocity (graphData w) = [] ->
  acceleration (graphData w) = [] ->
  Sorted Rle (map sampleTime (samples ++ [lastSample])) ->
  let w' := appendAll (samples ++ [lastSample]) w in
  let bound := sampleTime lastSample - timeWindow (graphData w) - 1 / 2 in
  exists evicted retained : list Sample,
    samples ++ [lastSample] = evicted ++ retained /\
    position (graphData w') = map (positionPoint (simulationMode w)) retained /\
    velocity (graphData w') = map velocityPoint retained /\
    acceleration (graphData w') = map accelerationPoint retained /\
    Forall (fun s => bound <= sampleTime s) retained /\
    Forall (fun s => sampleTime s < bound) evicted.
Proof.
  intros Hp Hv Ha Hsorted. cbv zeta.
  assert (Hw : holds w []) by (unfold holds; simpl; tauto).
  destruct (appendAll_split samples w Hw) as [ev [kept [Hl [Hh Hev]]]].
  rewrite appendAll_snoc.
  destruct (append_split (appendAll samples w) kept lastSample Hh)
    as [ev2 [kept2 [Hl2 [Hh2 [Hev2 Hk2]]]]].
  destruct (appendAll_frame samples w) as [Hm Ht].
  destruct (append_frame (appendAll samples w) lastSample) as [Hm2 _].
  rewrite Ht in Hev2, Hk2.
  assert (Hall : samples ++ [lastSample] = (ev ++ ev2) ++ kept2).
  { rewrite <- app_assoc, <- Hl2, app_assoc, <- Hl. reflexivity. }
  exists (ev ++ ev2), kept2.
  destruct Hh2 as [Hp2 [Hv2 Ha2]]. rewrite Hm2, Hm in Hp2.
  repeat (split; [ assumption | ]). split.
  - destruct kept2 as [| k rest]; [ constructor | ].
    pose proof (Hk2 k rest eq_refl) as Hk.
    constructor; [ exact Hk | ].
    apply Forall_forall. intros s Hs.
    assert (sampleTime k <= sampleTime s); [ | lra ].
    apply (sorted_app_le ((ev ++ ev2) ++ [k]) rest).
    + rewrite <- app_assoc. simpl. rewrite <- Hall. exact Hsorted.
    + apply in_or_app. right. now left.
    + exact Hs.
  - apply Forall_app. split; [ | exact Hev2 ].
    eapply Forall_impl; [ | exact Hev ].
    intros e [s [Hin Hlt]].
    assert (sampleTime s <= sampleTime lastSample); [ | lra ].
    apply (sorted_app_le samples [lastSample] Hsorted); [ exact Hin | ].
    now left.
Qed.

Lemma C3_window_eviction_witness :
  let samples := [mkSample 0 1 2 3; mkSample 3 4 5 6; mkSample 6 7 8 9] in
  let lastSample := mkSample 9 1 1 1 in
  let w' := appendAll (samples ++ [lastSample]) (initialWorld 400 500) in
  exists evicted retained : list Sample,
    samples ++ [lastSample] = evicted ++ retained /\
    position (graphData w') = map (positionPoint spring) retained /\
    velocity (graphData w') = map velocityPoint retained /\
    acceleration (graphData w') = map accelerationPoint retained /\
    Forall (fun s => 9 - 5 - 1 / 2 <= sampleTime s) retained /\
    Forall (fun s => sampleTime s < 9 - 5 - 1 / 2) evicted.
Proof.
  apply (C3_window_eviction (initialWorld 400 500)
           [mkSample 0 1 2 3; mkSample 3 4 5 6; mkSample 6 7 8 9]
           (mkSample 9 1 1 1)); try reflexivity.
  simpl. repeat constructor; lra.
Defined.

(** A run of the buffer: with the window 5 and appends at times 0, 3, 6 and
    9, the samples of times 0 and 3 are evicted by the last append. *)
Example appendAll_run :
  position
    (graphData
       (appendAll
          [mkSample 0 1 2 3; mkSample 3 4 5 6; mkSample 6 7 8 9;
           mkSample 9 1 1 1]
          (initialWorld 400 500))) =
  [mkPoint 6 7; mkPoint 9 1].
Proof.
  unfold appendAll, append, addDataPoint. simpl.
  repeat (decide_comparisons; simpl).
  reflexivity.
Qed.

(** ** Sample buffer: the three series stay parallel *)

Lemma parallel_length (g : GraphData) :
  parallel g ->
  length (position g) = length (velocity g) /\
  length (velocity g) = length (acceleration g).
Proof.
  intros [H1 H2].
  apply (f_equal (@length R)) in H1, H2.
  rewrite !length_map in H1, H2. tauto.
Qed.

Lemma clearSeries_parallel (g : GraphData) : parallel (clearSeries g).
Proof. split; reflexivity. Qed.

(** Each eviction step removes the front of all three series together. *)
Lemma evictOld_parallel (minTime : R) (pos vel acc : list Point) :
  map x pos = map x vel ->
  map x vel = map x acc ->
  let '(pos', vel', acc') := evictOld minTime pos vel acc in
  map x pos' = map x vel' /\ map x vel' = map x acc'.
Proof.
  revert vel acc. induction pos as [| p pos IH]; intros vel acc H1 H2.
  - simpl. tauto.
  - simpl. destruct (Rltb (x p) minTime); [ | tauto ].
    destruct vel as [| v vel]; [ discriminate | ].
    destruct acc as [| a acc]; [ discriminate | ].
    simpl in *. injection H1 as _ H1. injection H2 as _ H2.
    now apply IH.
Qed.

(** An append pushes one point with the same time into each series. *)
Lemma addDataPoint_parallel (t p v a : R) (w : World) :
  parallel (graphData w) -> parallel (graphData (addDataPoint t p v a w)).
Proof.
  intros [H1 H2]. unfold addDataPoint. cbv zeta.
  match goal with
  | |- context [evictOld ?m ?ps ?vs ?cs] =>
      pose proof (evictOld_parallel m ps vs cs) as He;
      destruct (evictOld m ps vs cs) as [[pos' vel'] acc']
  end.
  simpl. apply He; rewrite !map_app; simpl; congruence.
Qed.

Lemma resetSimulation_clears (w : World) :
  graphData (resetSimulation w) = clearSeries (graphData w) /\
  time (simulation (resetSimulation w)) = 0.
Proof.
  unfold resetSimulation, pauseSimulation. simpl.
  destruct (animationId (simulation w)) as [[| id] |]; simpl;
    destruct (simulationMode w); simpl; tauto.
Qed.

Lemma pauseSimulation_graphData (w : World) :
  graphData (pauseSimulation w) = graphData w.
Proof.
  unfold pauseSimulation. simpl.
  destruct (animationId (simulation w)) as [[| id] |]; reflexivity.
Qed.

Lemma startSimulation_graphData (w : World) :
  graphData (startSimulation w) = graphData w.
Proof.
  unfold startSimulation.
  destruct (hasErrors w); [ reflexivity | ].
  destruct (negb (isRunning (simulation w))); reflexivity.
Qed.

Lemma manualInput_graphData (k : ParamKey) (v : option R) (w : World) :
  graphData (manualInput k v w) = graphData w.
Proof.
  unfold manualInput, validateAndUpdate.
  destruct k, v as [r |]; simpl;
    repeat match goal with
           | |- context [if ?c then _ else _] => destruct c; simpl
           end;
    reflexivity.
Qed.

Lemma animate_parallel (timestamp : R) (w : World) :
  parallel (graphData w) -> parallel (graphData (animate timestamp w)).
Proof.
  intros Hp. unfold animate.
  destruct (negb (isRunning (simulation w))); [ exact Hp | ]. cbv zeta.
  match goal with
  | |- context [addDataPoint ?t ?p ?v ?a ?w1] =>
      assert (Hp2 : parallel (graphData (addDataPoint t p v a w1)))
        by (apply addDataPoint_parallel; exact Hp);
      set (w2 := addDataPoint t p v a w1) in *
  end.
  match goal with
  | |- context [match simulationMode w2 with
                | spring => drawSpring (?d * PIXELS_PER_METER) w2
                | pendulum => drawPendulum ?d w2
                end] =>
      pose proof (draw_frame w2 d) as Hd; cbv zeta in Hd;
      destruct Hd as [_ [_ [Hg _]]];
      set (w3 := match simulationMode w2 with
                 | spring => drawSpring (d * PIXELS_PER_METER) w2
                 | pendulum => drawPendulum d w2
                 end) in *
  end.
  unfold requestAnimationFrame. simpl. rewrite Hg. exact Hp2.
Qed.

Lemma handleCanvasMouseDown_parallel (mouseX mouseY : R) (w : World) :
  parallel (graphData w) ->
  parallel (graphData (handleCanvasMouseDown mouseX mouseY w)).
Proof.
  intros Hp. unfold handleCanvasMouseDown.
  destruct (isMouseOverMass w mouseX mouseY); [ | exact Hp ].
  simpl. apply clearSeries_parallel.
Qed.

Lemma handleCanvasMouseMove_graphData (fuel : nat) (mouseX mouseY : R)
  (w w' : World) :
  handleCanvasMouseMove fuel mouseX mouseY w = Some w' ->
  graphData w' = graphData w.
Proof.
  unfold handleCanvasMouseMove, handleSpringDrag, handlePendulumDrag.
  destruct (negb (isDragging (dragState w))).
  - intros H. now injection H as <-.
  - cbv zeta.
    destruct (simulationMode w);
      destruct (normalizeInternalTime _ _ _); simpl; intros H;
      try discriminate; now injection H as <-.
Qed.

Lemma step_parallel (w w' : World) :
  step w w' -> parallel (graphData w) -> parallel (graphData w').
Proof.
  intros Hstep Hp. destruct Hstep.
  - now rewrite startSimulation_graphData.
  - now rewrite pauseSimulation_graphData.
  - rewrite (proj1 (resetSimulation_clears w)). apply clearSeries_parallel.
  - unfold switchMode. rewrite (proj1 (resetSimulation_clears _)).
    apply clearSeries_parallel.
  - exact Hp.
  - now rewrite manualInput_graphData.
  - unfold deliverFrame. now apply animate_parallel.
  - now apply handleCanvasMouseDown_parallel.
  - erewrite handleCanvasMouseMove_graphData by eassumption. exact Hp.
  - unfold handleCanvasMouseUp.
    destruct (isDragging (dragState w)); exact Hp.
Qed.

Lemma reachable_parallel (width height : R) (w : World) :
  reachable width height w -> parallel (graphData w).
Proof.
  induction 1 as [| w w' _ IH Hstep].
  - split; reflexivity.
  - now apply (step_parallel w w').
Qed.

(** C10: in every state the page can reach - after any append with its
    eviction batch, reset, mode switch or drag-start clear - the three
    series have equal lengths and identical time coordinates element by
    element; the same holds after a further append or any further step. *)
Theorem C10_series_stay_parallel (width height : R) (w : World) :
  reachable width height w ->
  (length (position (graphData w)) = length (velocity (graphData w)) /\
   length (velocity (graphData w)) = length (acceleration (graphData w)) /\
   map x (position (graphData w)) = map x (velocity (graphData w)) /\
   map x (velocity (graphData w)) = map x (acceleration (graphData w))) /\
  (forall t p v a : R, parallel (graphData (addDataPoint t p v a w))) /\
  (forall w' : World, step w w' -> parallel (graphData w')).
Proof.
  intros Hr. pose proof (reachable_parallel width height w Hr) as Hp.
  pose proof (parallel_length _ Hp) as [Hl1 Hl2].
  destruct Hp as [H1 H2].
  repeat split; try assumption.
  - now apply addDataPoint_parallel.
  - now apply addDataPoint_parallel.
  - apply (step_parallel w w'); [ assumption | now split ].
  - apply (step_parallel w w'); [ assumption | now split ].
Qed.

Lemma C10_series_stay_parallel_witness :
  let w := deliverFrame 1 1000 (startSimulation (initialWorld 400 500)) in
  length (position (graphData w)) = length (velocity (graphData w)) /\
  map x (velocity (graphData w)) = map x (acceleration (graphData w)).
Proof.
  cbv zeta.
  assert (Hr : reachable 400 500
                 (deliverFrame 1 1000 (startSimulation (initialWorld 400 500)))).
  { eapply reachable_step.
    - eapply reachable_step; [ apply reachable_initial | apply step_start ].
    - apply step_frame. simpl. now left. }
  pose proof (C10_series_stay_parallel 400 500 _ Hr) as [[H1 [_ [_ H4]]] _].
  split; [ exact H1 | exact H4 ].
Defined.

(** ** Key-point annotator: the annotator does return points *)

Lemma forRange_In (startN endN n : Z) :
  (startN <= n <= endN)%Z -> In n (forRange startN endN).
Proof.
  intros Hn. unfold forRange. apply in_map_iff.
  exists (Z.to_nat (n - startN)). split; [ lia | ].
  apply in_seq. lia.
Qed.

Lemma maximos_kept (w : World) (minTime maxTime : R) (type : ChartType)
  (ns : list Z) (acc : KeyPoints) (p : Point) :
  In p (maximos acc) ->
  In p (maximos
          (fold_left (keyPointsIteration w minTime maxTime type) ns acc)).
Proof.
  revert acc. induction ns as [| n ns IH]; intros acc Hin; simpl.
  - exact Hin.
  - apply IH. unfold keyPointsIteration.
    destruct type; cbv zeta iota; simpl maximos; unfold pushIf;
      match goal with
      | |- context [if ?c then _ else _] => destruct c
      end; auto; apply in_or_app; now left.
Qed.

(** A position maximum that is visible and has occurred is returned. *)
Lemma position_maximum_listed (w : World) (minTime maxTime : R)
  (ns : list Z) (acc : KeyPoints) (n : Z) :
  In n ns ->
  visibleAndOccurred w minTime maxTime
    ((2 * PI * IZR n - phase (params w)) / calculateOmega w) = true ->
  In (mkPoint ((2 * PI * IZR n - phase (params w)) / calculateOmega w)
        match simulationMode w with
        | pendulum => getAmplitude w * 180 / PI
        | spring => getAmplitude w
        end)
     (maximos
        (fold_left (keyPointsIteration w minTime maxTime type_position)
           ns acc)).
Proof.
  revert acc. induction ns as [| m ns IH]; intros acc Hin Hv;
    [ contradiction | ].
  simpl. destruct Hin as [-> | Hin].
  - apply maximos_kept. unfold keyPointsIteration. cbv zeta iota.
    simpl maximos. rewrite Hv. unfold pushIf.
    apply in_or_app. right. now left.
  - now apply IH.
Qed.

(** The specification's scenario: spring mode with the initial parameters,
    window [0, 10] and current time 2; the position maximum at time 0 is
    among the returned maxima. *)
Example keyPoints_first_maximum :
  let w :=
    setSimulation (setTime 2 (simulation (initialWorld 400 500)))
      (initialWorld 400 500) in
  In (mkPoint 0 (15 / 100))
     (maximos (calculateKeyPoints w 0 10 type_position)).
Proof.
  cbv zeta.
  set (w := setSimulation (setTime 2 (simulation (initialWorld 400 500)))
              (initialWorld 400 500)).
  assert (Hw : 0 < calculateOmega w) by (apply calculateOmega_pos; simpl; lra).
  assert (Ht0 : (2 * PI * IZR 0 - phase (params w)) / calculateOmega w = 0).
  { simpl phase. unfold Rdiv. ring. }
  pose proof PI_RGT_0 as Hpi.
  unfold calculateKeyPoints. cbv zeta.
  match goal with
  | |- In _ (maximos (fold_left _ (forRange ?a ?b) ?acc)) =>
      pose proof (position_maximum_listed w 0 10 (forRange a b) acc 0) as H
  end.
  rewrite Ht0 in H. simpl simulationMode in H.
  unfold getAmplitude in H. simpl in H. apply H.
  - apply forRange_In. split.
    + pose proof (Zfloor_bound ((0 * calculateOmega w + 0) / (2 * PI)))
        as [Hf _].
      replace ((0 * calculateOmega w + 0) / (2 * PI)) with 0 in Hf
        by (field; lra).
      apply le_IZR in Hf.
      change (sqrt (40 / 1)) with (calculateOmega w).
      replace ((0 * calculateOmega w + 0) / (2 * PI)) with 0
        by (field; lra).
      lia.
    + pose proof (Zceil_bound ((10 * calculateOmega w + 0) / (2 * PI)))
        as [_ Hc].
      assert (H0 : 0 <= (10 * calculateOmega w + 0) / (2 * PI)).
      { apply Rmult_le_pos; [ lra | ].
        apply Rlt_le. apply Rinv_0_lt_compat. lra. }
      assert (Hz : IZR 0 <= IZR (Zceil ((10 * calculateOmega w + 0) / (2 * PI))))
        by lra.
      apply le_IZR in Hz.
      change (sqrt (40 / 1)) with (calculateOmega w). lia.
  - apply visibleAndOccurred_true. simpl. lra.
Qed.

(** * Further properties of the code *)

(** ** Kinematics: periodicity, bounds, energy *)

(** X1: with a positive angular frequency, the position, the velocity and
    the acceleration repeat after one [calculatePeriod]. *)
Theorem kinematics_periodic (w : World) (t : R) :
  0 < calculateOmega w ->
  calculatePosition w (t + calculatePeriod w) = calculatePosition w t /\
  calculateVelocity w (t + calculatePeriod w) = calculateVelocity w t /\
  calculateAcceleration w (t + calculatePeriod w) = calculateAcceleration w t.
Proof.
  intros Hw.
  assert (Harg : calculateOmega w * (t + calculatePeriod w) + phase (params w)
                 = calculateOmega w * t + phase (params w) + 2 * INR 1 * PI).
  { unfold calculatePeriod. simpl INR. field. lra. }
  unfold calculatePosition, calculateVelocity, calculateAcceleration.
  cbv zeta. rewrite Harg, cos_period, sin_period. tauto.
Qed.

Lemma kinematics_periodic_witness :
  calculatePosition (initialWorld 400 500)
    (3 + calculatePeriod (initialWorld 400 500)) =
  calculatePosition (initialWorld 400 500) 3.
Proof.
  apply (kinematics_periodic (initialWorld 400 500) 3).
  apply initialWorld_omega_pos.
Defined.

Lemma scaled_cos_bound (c th : R) : 0 <= c -> - c <= c * cos th <= c.
Proof. intros Hc. pose proof (COS_bound th). split; nra. Qed.

Lemma scaled_sin_bound (c th : R) : 0 <= c -> - c <= c * sin th <= c.
Proof. intros Hc. pose proof (SIN_bound th). split; nra. Qed.

(** X3: with a non-negative amplitude and angular frequency, the position
    stays within the amplitude, the velocity within the displayed [vMax]
    and the acceleration within the displayed [aMax], at every time. *)
Theorem kinematics_bounded (w : World) (t : R) :
  0 <= getAmplitude w ->
  0 <= calculateOmega w ->
  Rabs (calculatePosition w t) <= getAmplitude w /\
  Rabs (calculateVelocity w t) <= calc_vmax (updateCalculatedValues w) /\
  Rabs (calculateAcceleration w t) <= calc_amax (updateCalculatedValues w).
Proof.
  intros HA Hw.
  unfold calculatePosition, calculateVelocity, calculateAcceleration.
  simpl. cbv zeta.
  set (A := getAmplitude w) in *. set (om := calculateOmega w) in *.
  set (th := om * t + phase (params w)).
  assert (Hv : 0 <= A * om) by now apply Rmult_le_pos.
  assert (Ha : 0 <= A * om * om) by now apply Rmult_le_pos.
  pose proof (scaled_cos_bound A th HA).
  pose proof (scaled_sin_bound (A * om) th Hv).
  pose proof (scaled_cos_bound (A * om * om) th Ha).
  repeat split; apply Rabs_le; lra.
Qed.

Lemma kinematics_bounded_witness :
  Rabs (calculatePosition (initialWorld 400 500) 7) <= 15 / 100.
Proof.
  apply (kinematics_bounded (initialWorld 400 500) 7).
  - unfold getAmplitude. simpl. lra.
  - apply Rlt_le. apply initialWorld_omega_pos.
Defined.

Lemma omega_squared (w : World) :
  0 < mass (params w) -> 0 <= springConstant (params w) ->
  0 <= gravity (params w) -> 0 < pendulumLength (params w) ->
  calculateOmega w * calculateOmega w =
  match simulationMode w with
  | spring => springConstant (params w) / mass (params w)
  | pendulum => gravity (params w) / pendulumLength (params w)
  end.
Proof.
  intros Hm Hk Hg Hl. unfold calculateOmega.
  destruct (simulationMode w); apply sqrt_sqrt; unfold Rdiv;
    apply Rmult_le_pos; try assumption;
    apply Rlt_le; now apply Rinv_0_lt_compat.
Qed.

(** X4: the displayed energy is the conserved mechanical energy of the
    motion: at every time, kinetic plus potential energy - for the spring
    m·v²/2 + k·x²/2, for the pendulum (per unit mass, small angles)
    L²·v²/2 + g·L·x²/2 - equals the [energy] of [updateCalculatedValues]. *)
Theorem displayed_energy_is_conserved (w : World) (t : R) :
  0 < mass (params w) -> 0 <= springConstant (params w) ->
  0 <= gravity (params w) -> 0 < pendulumLength (params w) ->
  match simulationMode w with
  | spring =>
      mass (params w) * (calculateVelocity w t)² / 2 +
      springConstant (params w) * (calculatePosition w t)² / 2
  | pendulum =>
      (pendulumLength (params w))² * (calculateVelocity w t)² / 2 +
      gravity (params w) * pendulumLength (params w) *
      (calculatePosition w t)² / 2
  end = calc_energy (updateCalculatedValues w).
Proof.
  intros Hm Hk Hg Hl.
  pose proof (omega_squared w Hm Hk Hg Hl) as Hom.
  unfold calculateVelocity, calculatePosition, updateCalculatedValues.
  cbv zeta. simpl calc_energy. unfold getAmplitude.
  set (om := calculateOmega w) in *.
  set (th := om * t + phase (params w)).
  pose proof (sin2_cos2 th) as Hsc. unfold Rsqr in *.
  destruct (simulationMode w).
  - set (A := amplitude (params w)).
    replace (mass (params w) * (- A * om * sin th * (- A * om * sin th)) / 2 +
             springConstant (params w) * (A * cos th * (A * cos th)) / 2)
      with (A * A / 2 *
            (mass (params w) * (om * om) * (sin th * sin th) +
             springConstant (params w) * (cos th * cos th))) by field.
    rewrite Hom.
    replace (mass (params w) * (springConstant (params w) / mass (params w)))
      with (springConstant (params w)) by (field; lra).
    replace (cos th * cos th) with (1 - sin th * sin th) by lra.
    field.
  - set (A := pendulumAngle (params w) * PI / 180).
    set (L := pendulumLength (params w)) in *.
    set (g := gravity (params w)) in *.
    replace (L * L * (- A * om * sin th * (- A * om * sin th)) / 2 +
             g * L * (A * cos th * (A * cos th)) / 2)
      with (A * A * L / 2 *
            (L * (om * om) * (sin th * sin th) + g * (cos th * cos th)))
      by field.
    rewrite Hom.
    replace (L * (g / L)) with g by (field; lra).
    replace (cos th * cos th) with (1 - sin th * sin th) by lra.
    field.
Qed.

Lemma displayed_energy_is_conserved_witness :
  1 * (calculateVelocity (initialWorld 400 500) 2)² / 2 +
  40 * (calculatePosition (initialWorld 400 500) 2)² / 2 =
  calc_energy (updateCalculatedValues (initialWorld 400 500)).
Proof.
  apply (displayed_energy_is_conserved (initialWorld 400 500) 2); simpl; lra.
Defined.

(** ** Render driver: the frame scheduler *)

Lemma cancel_only_request (id : nat) (h : Host) :
  frameRequests h = [id] -> frameRequests (cancelAnimationFrame id h) = [].
Proof.
  intros H. unfold cancelAnimationFrame. simpl. rewrite H. simpl.
  now rewrite Nat.eqb_refl.
Qed.

Lemma pauseSimulation_scheduler (w : World) :
  schedulerInvariant w ->
  schedulerInvariant (pauseSimulation w) /\
  isRunning (simulation (pauseSimulation w)) = false.
Proof.
  intros [Hn Hinv]. unfold schedulerInvariant, pauseSimulation.
  destruct (isRunning (simulation w)) eqn:Hr.
  - destruct Hinv as [id [Ha [Hf Hid]]]. simpl. rewrite Ha.
    destruct id as [| id']; [ lia | ]. simpl.
    rewrite Hf. simpl. rewrite Nat.eqb_refl. simpl. auto.
  - destruct Hinv as [Ha Hf]. simpl. rewrite Ha. simpl. auto.
Qed.

Lemma startSimulation_scheduler (w : World) :
  schedulerInvariant w -> schedulerInvariant (startSimulation w).
Proof.
  intros [Hn Hinv]. unfold schedulerInvariant, startSimulation.
  destruct (hasErrors w); [ simpl; auto | ].
  destruct (isRunning (simulation w)) eqn:Hr; simpl.
  - rewrite Hr. auto.
  - destruct Hinv as [Ha Hf]. rewrite Hf. split; [ lia | ].
    exists (nextRequestId (host w)). repeat split; auto.
Qed.

(** Changes that leave the scheduler's view of the world alone. *)
Lemma schedulerInvariant_ext (w w' : World) :
  isRunning (simulation w') = isRunning (simulation w) ->
  animationId (simulation w') = animationId (simulation w) ->
  frameRequests (host w') = frameRequests (host w) ->
  nextRequestId (host w') = nextRequestId (host w) ->
  schedulerInvariant w -> schedulerInvariant w'.
Proof.
  intros Hr Ha Hf Hn. unfold schedulerInvariant.
  rewrite Hr, Ha, Hf, Hn. tauto.
Qed.

Lemma resetSimulation_scheduler (w : World) :
  schedulerInvariant w ->
  schedulerInvariant (resetSimulation w) /\
  isRunning (simulation (resetSimulation w)) = false.
Proof.
  intros Hinv.
  destruct (pauseSimulation_scheduler w Hinv) as [Hp Hr].
  split.
  - apply (schedulerInvariant_ext (pauseSimulation w)); try exact Hp;
      unfold resetSimulation; cbv zeta;
      destruct (simulationMode _); reflexivity.
  - unfold resetSimulation. cbv zeta.
    destruct (simulationMode _); simpl; exact Hr.
Qed.

Lemma animate_scheduler (timestamp : R) (w : World) :
  (1 <= nextRequestId (host w))%nat ->
  isRunning (simulation w) = true ->
  frameRequests (host w) = [] ->
  schedulerInvariant (animate timestamp w).
Proof.
  intros Hn Hr Hf. unfold animate. rewrite Hr. cbv zeta. simpl negb. cbv iota.
  match goal with
  | |- context [addDataPoint ?t ?p ?v ?a ?w1] =>
      pose proof (addDataPoint_frame t p v a w1) as [_ [_ [Hs [_ [Hh _]]]]];
      set (w2 := addDataPoint t p v a w1) in *
  end.
  match goal with
  | |- context [match simulationMode w2 with
                | spring => drawSpring (?d * PIXELS_PER_METER) w2
                | pendulum => drawPendulum ?d w2
                end] =>
      pose proof (draw_frame w2 d) as Hd; cbv zeta in Hd;
      destruct Hd as [Hs3 [Hh3 _]];
      set (w3 := match simulationMode w2 with
                 | spring => drawSpring (d * PIXELS_PER_METER) w2
                 | pendulum => drawPendulum d w2
                 end) in *
  end.
  unfold schedulerInvariant, requestAnimationFrame. simpl.
  rewrite Hs3, Hs, Hh3, Hh. simpl.
  replace (isRunning
             (if Req_dec_T (lastTimestamp (simulation w)) 0
              then setLastTimestamp timestamp (simulation w)
              else simulation w))
    with true
    by (destruct (Req_dec_T (lastTimestamp (simulation w)) 0); simpl; auto).
  rewrite Hf. simpl. split; [ lia | ].
  exists (nextRequestId (host w)). repeat split; auto.
Qed.

Lemma handleCanvasMouseMove_frame (fuel : nat) (mouseX mouseY : R)
  (w w' : World) :
  handleCanvasMouseMove fuel mouseX mouseY w = Some w' ->
  isRunning (simulation w') = isRunning (simulation w) /\
  animationId (simulation w') = animationId (simulation w) /\
  lastTimestamp (simulation w') = lastTimestamp (simulation w) /\
  timeScale (simulation w') = timeScale (simulation w) /\
  host w' = host w /\ params w' = params w /\
  simulationMode w' = simulationMode w /\
  validationState w' = validationState w.
Proof.
  unfold handleCanvasMouseMove, handleSpringDrag, handlePendulumDrag.
  destruct (negb (isDragging (dragState w))).
  - intros H. injection H as <-. tauto.
  - cbv zeta.
    destruct (simulationMode w) eqn:Hm;
      destruct (normalizeInternalTime _ _ _); simpl; intros H;
      try discriminate; injection H as <-; simpl; rewrite ?Hm; tauto.
Qed.

Lemma manualInput_frame (k : ParamKey) (v : option R) (w : World) :
  simulation (manualInput k v w) = simulation w /\
  host (manualInput k v w) = host w /\
  simulationMode (manualInput k v w) = simulationMode w.
Proof.
  unfold manualInput, validateAndUpdate.
  destruct k, v as [r |]; simpl;
    repeat match goal with
           | |- context [if ?c then _ else _] => destruct c; simpl
           end;
    tauto.
Qed.

Lemma step_scheduler (w w' : World) :
  step w w' -> schedulerInvariant w -> schedulerInvariant w'.
Proof.
  intros Hstep Hinv. destruct Hstep.
  - now apply startSimulation_scheduler.
  - now apply pauseSimulation_scheduler.
  - now apply resetSimulation_scheduler.
  - unfold switchMode. apply resetSimulation_scheduler.
    now apply (schedulerInvariant_ext w).
  - now apply (schedulerInvariant_ext w).
  - destruct (manualInput_frame k v w) as [Hs [Hh _]].
    apply (schedulerInvariant_ext w); try rewrite Hs; try rewrite Hh; auto.
  - destruct Hinv as [Hn Hinv].
    destruct (isRunning (simulation w)) eqn:Hr.
    + destruct Hinv as [id0 [Ha [Hf Hid]]].
      rewrite Hf in H. destruct H as [<- | []].
      unfold deliverFrame. apply animate_scheduler; simpl; auto.
      rewrite Hf. simpl. now rewrite Nat.eqb_refl.
    + destruct Hinv as [_ Hf]. rewrite Hf in H. contradiction.
  - unfold handleCanvasMouseDown.
    destruct (isMouseOverMass w mouseX mouseY); [ | exact Hinv ].
    cbv zeta.
    match goal with
    | |- context [if ?c then pauseSimulation ?w1 else ?w1] =>
        assert (H1 : schedulerInvariant w1)
          by (now apply (schedulerInvariant_ext w));
        assert (H2 : schedulerInvariant (if c then pauseSimulation w1 else w1))
          by (destruct c; [ now apply pauseSimulation_scheduler | exact H1 ]);
        set (w2 := if c then pauseSimulation w1 else w1) in *
    end.
    now apply (schedulerInvariant_ext w2).
  - destruct (handleCanvasMouseMove_frame _ _ _ _ _ H)
      as [Hr [Ha [_ [_ [Hh _]]]]].
    apply (schedulerInvariant_ext w); try rewrite Hh; auto.
  - unfold handleCanvasMouseUp.
    destruct (isDragging (dragState w)); [ | exact Hinv ].
    now apply (schedulerInvariant_ext w).
Qed.

(** X5: in every state the page can reach, at most one animation frame is
    pending: while the simulation runs, the pending requests are exactly
    the handle stored in [animationId]; while it does not run, nothing is
    pending and no handle is stored.  So a pause, a reset or a drag start
    leaves no frame to be delivered, and a second start never doubles the
    animation loop. *)
Theorem single_pending_frame (width height : R) (w : World) :
  reachable width height w ->
  (isRunning (simulation w) = true ->
   exists id : nat,
     animationId (simulation w) = Some id /\ frameRequests (host w) = [id]) /\
  (isRunning (simulation w) = false ->
   animationId (simulation w) = None /\ frameRequests (host w) = []).
Proof.
  intros Hr.
  assert (Hinv : schedulerInvariant w).
  { induction Hr as [| w w' _ IH Hstep].
    - unfold schedulerInvariant. simpl. split; [ lia | auto ].
    - now apply (step_scheduler w w'). }
  destruct Hinv as [_ Hinv]. split; intros Hrun; rewrite Hrun in Hinv.
  - destruct Hinv as [id [Ha [Hf _]]]. now exists id.
  - exact Hinv.
Qed.

Lemma single_pending_frame_witness :
  let w := startSimulation (startSimulation (initialWorld 400 500)) in
  exists id : nat,
    animationId (simulation w) = Some id /\ frameRequests (host w) = [id].
Proof.
  cbv zeta.
  assert (Hr : reachable 400 500
                 (startSimulation (startSimulation (initialWorld 400 500)))).
  { eapply reachable_step; [ | apply step_start ].
    eapply reachable_step; [ apply reachable_initial | apply step_start ]. }
  apply (single_pending_frame 400 500 _ Hr). reflexivity.
Defined.

(** ** Render driver: pause, resume, reset *)

Lemma pauseSimulation_frame (w : World) :
  isRunning (simulation (pauseSimulation w)) = false /\
  time (simulation (pauseSimulation w)) = time (simulation w) /\
  timeScale (simulation (pauseSimulation w)) = timeScale (simulation w) /\
  validationState (pauseSimulation w) = validationState w /\
  params (pauseSimulation w) = params w /\
  simulationMode (pauseSimulation w) = simulationMode w.
Proof.
  unfold pauseSimulation. simpl.
  destruct (animationId (simulation w)) as [[| id] |]; simpl; tauto.
Qed.

Lemma animate_validationState (timestamp : R) (w : World) :
  validationState (animate timestamp w) = validationState w.
Proof.
  unfold animate, addDataPoint.
  destruct (negb (isRunning (simulation w))); [ reflexivity | ]. cbv zeta.
  destruct (evictOld _ _ _ _) as [[pos' vel'] acc']. simpl.
  destruct (simulationMode w); reflexivity.
Qed.

(** X6: a pause keeps the elapsed time and the sample series, and after a
    pause and a new start (no field being invalid) the first delivered frame
    leaves the elapsed time where the pause left it, however long the pause
    lasted. *)
Theorem pause_resume_keeps_time (w : World) (timestamp : R) :
  hasErrors w = false ->
  time (simulation (pauseSimulation w)) = time (simulation w) /\
  graphData (pauseSimulation w) = graphData w /\
  isRunning (simulation (startSimulation (pauseSimulation w))) = true /\
  time (simulation
          (animate timestamp (startSimulation (pauseSimulation w)))) =
  time (simulation w).
Proof.
  intros He.
  destruct (pauseSimulation_frame w) as [Hr [Ht [_ [Hv _]]]].
  assert (He' : hasErrors (pauseSimulation w) = false)
    by (unfold hasErrors in *; now rewrite Hv).
  destruct (startSimulation_starts _ He' Hr) as [Hr1 [Hl1 [Ht1 _]]].
  pose proof (animate_simulation _ timestamp Hr1) as Ha. cbv zeta in Ha.
  destruct Ha as [Ha _].
  repeat split; auto using pauseSimulation_graphData.
  rewrite Ha, Hl1, Ht1, Ht.
  destruct (Req_dec_T 0 0) as [_ | Hne]; [ | contradiction ].
  replace ((timestamp - timestamp) / 1000) with 0 by field.
  rewrite Rmin_left by lra. ring.
Qed.

Lemma pause_resume_keeps_time_witness :
  let w := animate 1016 (animate 1000 (startSimulation (initialWorld 400 500)))
  in
  time (simulation (animate 99999 (startSimulation (pauseSimulation w)))) =
  time (simulation w).
Proof.
  cbv zeta.
  apply (pause_resume_keeps_time
           (animate 1016 (animate 1000 (startSimulation (initialWorld 400 500))))
           99999).
  unfold hasErrors. rewrite !animate_validationState. reflexivity.
Defined.


(** ** Render driver: the clock over a run of frames *)

Lemma last_nonempty_default (l : list R) (a b d d' : R) :
  last (a :: b :: l) d = last (b :: l) d'.
Proof.
  revert a b. induction l as [| c l IH]; intros a b; [ reflexivity | ].
  change (last (a :: b :: c :: l) d) with (last (b :: c :: l) d).
  change (last (b :: c :: l) d') with (last (c :: l) d').
  apply IH.
Qed.

Lemma runFrames_seeded (timestamps : list R) (w : World) (l : R) :
  isRunning (simulation w) = true ->
  timeScale (simulation w) = 1 ->
  lastTimestamp (simulation w) = l ->
  0 < l ->
  Sorted Rle (l :: timestamps) ->
  let w' := runFrames timestamps w in
  isRunning (simulation w') = true /\
  lastTimestamp (simulation w') = last timestamps l /\
  time (simulation w) <= time (simulation w') /\
  time (simulation w') <=
    time (simulation w) + (last timestamps l - l) / 1000 /\
  time (simulation w') <=
    time (simulation w) + 1 / 10 * INR (length timestamps).
Proof.
  revert w l. induction timestamps as [| ts rest IH];
    intros w l Hr Hs Hl Hpos Hsorted; cbv zeta.
  - simpl. rewrite Hr, Hl. repeat split; lra.
  - inversion Hsorted as [| a b Hsorted' Hhd]; subst a b.
    inversion Hhd as [| c d Hle]; subst c d.
    pose proof (animate_simulation w ts Hr) as Ha. cbv zeta in Ha.
    destruct Ha as [Ht [Hl' [Hs' Hr']]].
    rewrite Hl, Hs in Ht.
    destruct (Req_dec_T l 0) as [H0 | _]; [ lra | ].
    rewrite Hs in Hs'.
    assert (Hpos' : 0 < ts) by lra.
    pose proof (IH (animate ts w) ts Hr' Hs' Hl' Hpos' Hsorted') as IH'.
    cbv zeta in IH'. destruct IH' as [Hr2 [Hl2 [Hlo [Hhi Hcnt]]]].
    change (runFrames (ts :: rest) w) with (runFrames rest (animate ts w)).
    assert (Hlast : last (ts :: rest) l = last rest ts).
    { destruct rest; [ reflexivity | ]. apply last_nonempty_default. }
    rewrite Hlast.
    assert (Hmin0 : 0 <= Rmin ((ts - l) / 1000) (1 / 10))
      by (apply Rmin_glb; lra).
    pose proof (Rmin_l ((ts - l) / 1000) (1 / 10)) as Hmin1.
    pose proof (Rmin_r ((ts - l) / 1000) (1 / 10)) as Hmin2.
    change (length (ts :: rest)) with (S (length rest)). rewrite S_INR.
    repeat split; auto; lra.
Qed.

(** X8: the simulated clock never runs ahead of the wall clock.  After a
    start, for frames delivered at positive, non-decreasing timestamps (in
    milliseconds), the elapsed time grows by at least 0, by at most the
    wall-clock time between the first and the last frame, and by at most
    0.1 per frame after the first. *)
Theorem clock_never_ahead_of_wall_clock (w : World) (first : R)
  (rest : list R) :
  isRunning (simulation w) = true ->
  timeScale (simulation w) = 1 ->
  lastTimestamp (simulation w) = 0 ->
  0 < first ->
  Sorted Rle (first :: rest) ->
  let w' := runFrames (first :: rest) w in
  lastTimestamp (simulation w') = last rest first /\
  time (simulation w) <= time (simulation w') /\
  time (simulation w') <=
    time (simulation w) + (last rest first - first) / 1000 /\
  time (simulation w') <= time (simulation w) + 1 / 10 * INR (length rest).
Proof.
  intros Hr Hs Hl Hpos Hsorted. cbv zeta.
  change (runFrames (first :: rest) w) with (runFrames rest (animate first w)).
  pose proof (animate_simulation w first Hr) as Ha. cbv zeta in Ha.
  destruct Ha as [Ht [Hl' [Hs' Hr']]].
  rewrite Hl, Hs in Ht. rewrite Hs in Hs'.
  destruct (Req_dec_T 0 0) as [_ | Hne]; [ | contradiction ].
  replace ((first - first) / 1000) with 0 in Ht by field.
  rewrite Rmin_left in Ht by lra.
  pose proof (runFrames_seeded rest (animate first w) first Hr' Hs' Hl' Hpos
                Hsorted) as H.
  cbv zeta in H. destruct H as [_ [Hl2 [Hlo [Hhi Hcnt]]]].
  repeat split; auto; lra.
Qed.

Lemma clock_never_ahead_of_wall_clock_witness :
  let w := startSimulation (initialWorld 400 500) in
  let w' := runFrames [1000; 1016; 1033] w in
  time (simulation w) <= time (simulation w') /\
  time (simulation w') <= time (simulation w) + (1033 - 1000) / 1000.
Proof.
  cbv zeta.
  assert (Hsorted : Sorted Rle [1000; 1016; 1033])
    by (repeat constructor; lra).
  assert (Hpos : 0 < 1000) by lra.
  pose proof (clock_never_ahead_of_wall_clock
                (startSimulation (initialWorld 400 500)) 1000 [1016; 1033]
                eq_refl eq_refl eq_refl Hpos Hsorted) as H.
  cbv zeta in H. destruct H as [_ [Hlo [Hhi _]]].
  split; [ exact Hlo | exact Hhi ].
Defined.

(** ** Parameter validation *)

Lemma showError_flags (show : bool) (k : ParamKey) (w : World) :
  validationState (showError show (Some k) w) k = negb show /\
  (forall k', k' <> k ->
     validationState (showError show (Some k) w) k' = validationState w k') /\
  params (showError show (Some k) w) = params w /\
  simulation (showError show (Some k) w) = simulation w.
Proof.
  unfold showError. simpl. repeat split.
  - destruct (ParamKey_eq_dec k k); congruence.
  - intros k' Hk. destruct (ParamKey_eq_dec k' k); congruence.
Qed.

(** The manual input of a field either rejects or accepts, by its range. *)
Lemma manualInput_cases (k : ParamKey) (value : option R) (w : World) :
  manualInput k value w =
  match value with
  | Some v =>
      if Rleb (fst (inputRange k)) v && Rleb v (snd (inputRange k))
      then
        setParams (setParam k v (params w)) (showError false (Some k) w)
      else showError true (Some k) w
  | None => showError true (Some k) w
  end.
Proof.
  destruct value as [v |].
  - destruct (Rleb (fst (inputRange k)) v) eqn:E1;
      destruct (Rleb v (snd (inputRange k))) eqn:E2;
      try apply Rleb_true in E1; try apply Rleb_false in E1;
      try apply Rleb_true in E2; try apply Rleb_false in E2;
      destruct k; unfold manualInput, validateAndUpdate;
      cbn [inputRange fst snd] in *;
      try solve [ exfalso; lra ];
      decide_comparisons; reflexivity.
  - destruct k; reflexivity.
Qed.

(** X9: a manual input that does not parse to a number, or lies outside the
    range of its field, changes no parameter, marks that field (and only
    that field) invalid, and a start attempted afterwards leaves the
    simulation as it was. *)
Theorem manual_input_rejected (k : ParamKey) (value : option R) (w : World) :
  (forall v, value = Some v ->
     v < fst (inputRange k) \/ snd (inputRange k) < v) ->
  params (manualInput k value w) = params w /\
  validationState (manualInput k value w) k = false /\
  (forall k', k' <> k ->
     validationState (manualInput k value w) k' = validationState w k') /\
  simulation (startSimulation (manualInput k value w)) = simulation w.
Proof.
  intros Hbad.
  assert (Heq : manualInput k value w = showError true (Some k) w).
  { rewrite manualInput_cases. destruct value as [v |]; [ | reflexivity ].
    replace (Rleb (fst (inputRange k)) v && Rleb v (snd (inputRange k)))
      with false; [ reflexivity | ].
    symmetry. apply andb_false_iff.
    destruct (Hbad v eq_refl); [ left | right ]; now apply Rleb_false. }
  rewrite Heq.
  destruct (showError_flags true k w) as [Hk [Hother [Hp Hs]]].
  repeat split; auto.
  assert (He : hasErrors (showError true (Some k) w) = true)
    by (apply hasErrors_true; now exists k).
  unfold startSimulation. rewrite He. exact Hs.
Qed.

Lemma manual_input_rejected_witness :
  params (manualInput key_gravity (Some 25) (initialWorld 400 500)) =
    params (initialWorld 400 500) /\
  validationState (manualInput key_gravity (Some 25) (initialWorld 400 500))
    key_gravity = false.
Proof.
  assert (H : forall v, Some 25 = Some v ->
                v < fst (inputRange key_gravity) \/
                snd (inputRange key_gravity) < v).
  { intros v Hv. injection Hv as <-. right. simpl. lra. }
  pose proof (manual_input_rejected key_gravity (Some 25)
                (initialWorld 400 500) H) as [Hp [Hk _]].
  split; [ exact Hp | exact Hk ].
Defined.

Lemma getParam_setParam (k k' : ParamKey) (v : R) (p : Params) :
  getParam k' (setParam k v p) = if ParamKey_eq_dec k' k then v
                                 else getParam k' p.
Proof. destruct k, k'; reflexivity. Qed.

(** X10: a manual input within the range of its field, bounds included,
    stores the value in that parameter and in no other, marks that field
    valid and leaves the other flags alone; if no other field is invalid,
    the page has no errors afterwards. *)
Theorem manual_input_accepted (k : ParamKey) (v : R) (w : World) :
  fst (inputRange k) <= v <= snd (inputRange k) ->
  getParam k (params (manualInput k (Some v) w)) = v /\
  (forall k', k' <> k ->
     getParam k' (params (manualInput k (Some v) w)) = getParam k' (params w) /\
     validationState (manualInput k (Some v) w) k' = validationState w k') /\
  validationState (manualInput k (Some v) w) k = true /\
  ((forall k', k' <> k -> validationState w k' = true) ->
   hasErrors (manualInput k (Some v) w) = false).
Proof.
  intros [Hlo Hhi].
  rewrite manualInput_cases.
  replace (Rleb (fst (inputRange k)) v && Rleb v (snd (inputRange k)))
    with true
    by (symmetry; apply andb_true_iff; split; now apply Rleb_true).
  destruct (showError_flags false k w) as [Hk [Hother [Hp Hs]]].
  set (w1 := showError false (Some k) w) in *.
  change (params (setParams (setParam k v (params w)) w1))
    with (setParam k v (params w)).
  change (validationState (setParams (setParam k v (params w)) w1))
    with (validationState w1).
  split; [ | split; [ | split ] ].
  - rewrite getParam_setParam.
    destruct (ParamKey_eq_dec k k); congruence.
  - intros k' Hne. rewrite getParam_setParam.
    destruct (ParamKey_eq_dec k' k); [ contradiction | ].
    split; [ reflexivity | now apply Hother ].
  - exact Hk.
  - intros Hrest. apply hasErrors_false. intros k'.
    change (validationState (setParams (setParam k v (params w)) w1))
      with (validationState w1).
    destruct (ParamKey_eq_dec k' k) as [-> | Hne]; [ exact Hk | ].
    rewrite (Hother k' Hne). now apply Hrest.
Qed.

Lemma manual_input_accepted_witness :
  getParam key_amplitude
    (params (manualInput key_amplitude (Some (1 / 100)) (initialWorld 400 500)))
  = 1 / 100.
Proof.
  apply (manual_input_accepted key_amplitude (1 / 100) (initialWorld 400 500)).
  simpl. lra.
Defined.

Lemma manualInput_other_flags (k : ParamKey) (value : option R) (w : World)
  (k' : ParamKey) :
  k' <> k ->
  validationState (manualInput k value w) k' = validationState w k'.
Proof.
  intros Hne. rewrite manualInput_cases.
  destruct value as [v |];
    [ destruct (Rleb (fst (inputRange k)) v && Rleb v (snd (inputRange k))) | ].
  - change (validationState
              (setParams (setParam k v (params w))
                 (showError false (Some k) w)) k')
      with (validationState (showError false (Some k) w) k').
    now apply showError_flags.
  - now apply showError_flags.
  - now apply showError_flags.
Qed.

(** X11: a slider move is never rejected: it stores its value, marks its
    field valid, and so repairs a rejected manual input of the same field -
    if the page had no errors before the bad input, it has none after the
    slider move. *)
Theorem slider_repairs_rejected_input (k : ParamKey) (bad : option R)
  (v : R) (w : World) :
  hasErrors w = false ->
  let w' := sliderInput k v (manualInput k bad w) in
  getParam k (params w') = v /\ hasErrors w' = false.
Proof.
  intros He. cbv zeta. unfold sliderInput.
  set (w1 := manualInput k bad w).
  destruct (showError_flags false k
              (setParams (setParam k v (params w1)) w1))
    as [Hk [Hother [Hp _]]].
  split.
  - rewrite Hp. simpl. rewrite getParam_setParam.
    destruct (ParamKey_eq_dec k k); congruence.
  - apply hasErrors_false. intros k'.
    destruct (ParamKey_eq_dec k' k) as [-> | Hne]; [ exact Hk | ].
    rewrite (Hother k' Hne).
    change (validationState (setParams (setParam k v (params w1)) w1) k')
      with (validationState w1 k').
    unfold w1. rewrite (manualInput_other_flags k bad w k' Hne).
    exact (proj1 (hasErrors_false w) He k').
Qed.

Lemma slider_repairs_rejected_input_witness :
  hasErrors
    (sliderInput key_mass 2 (manualInput key_mass None (initialWorld 400 500)))
  = false.
Proof.
  apply (slider_repairs_rejected_input key_mass None 2 (initialWorld 400 500)).
  reflexivity.
Defined.

(** ** Key-point annotator: what is returned, exactly *)

Lemma keyPointsIteration_candidates (w : World) (minTime maxTime : R)
  (type : ChartType) (acc : KeyPoints) (n : Z) :
  keyPointsIteration w minTime maxTime type acc n =
  let '(tMax, tMin, tZero1, tZero2) := candidateTimes w type n in
  let '(yMax, yMin) := extremeValues w type in
  mkKeyPoints
    (pushIf (visibleAndOccurred w minTime maxTime tMax) (mkPoint tMax yMax)
       (maximos acc))
    (pushIf (visibleAndOccurred w minTime maxTime tMin) (mkPoint tMin yMin)
       (minimos acc))
    (pushIf (visibleAndOccurred w minTime maxTime tZero2) (mkPoint tZero2 0)
       (pushIf (visibleAndOccurred w minTime maxTime tZero1)
          (mkPoint tZero1 0) (ceros acc))).
Proof.
  unfold keyPointsIteration, candidateTimes, extremeValues.
  destruct type; [ destruct (simulationMode w) | | ]; reflexivity.
Qed.

Lemma pushIf_In (c : bool) (p q : Point) (l : list Point) :
  In q (pushIf c p l) <-> In q l \/ (c = true /\ q = p).
Proof.
  unfold pushIf. destruct c.
  - rewrite in_app_iff. simpl. intuition congruence.
  - intuition discriminate.
Qed.

(** What the loop has pushed after running over the counter values [ns]. *)
Lemma keyPointsLoop_In (w : World) (minTime maxTime : R) (type : ChartType)
  (ns : list Z) (acc : KeyPoints) (p : Point) :
  let r := fold_left (keyPointsIteration w minTime maxTime type) ns acc in
  let vis := visibleAndOccurred w minTime maxTime in
  (In p (maximos r) <->
   In p (maximos acc) \/
   exists n, In n ns /\ vis (tMaxOf w type n) = true /\
             p = mkPoint (tMaxOf w type n) (fst (extremeValues w type))) /\
  (In p (minimos r) <->
   In p (minimos acc) \/
   exists n, In n ns /\ vis (tMinOf w type n) = true /\
             p = mkPoint (tMinOf w type n) (snd (extremeValues w type))) /\
  (In p (ceros r) <->
   In p (ceros acc) \/
   exists n, In n ns /\
     ((vis (tZero1Of w type n) = true /\ p = mkPoint (tZero1Of w type n) 0) \/
      (vis (tZero2Of w type n) = true /\ p = mkPoint (tZero2Of w type n) 0))).
Proof.
  cbv zeta. revert acc. induction ns as [| n ns IH]; intros acc.
  - simpl. repeat split; try tauto; intros [H | [n [[] _]]]; exact H.
  - simpl fold_left.
    destruct (IH (keyPointsIteration w minTime maxTime type acc n))
      as [Hmax [Hmin Hzero]].
    rewrite Hmax, Hmin, Hzero. clear IH Hmax Hmin Hzero.
    rewrite keyPointsIteration_candidates.
    unfold tMaxOf, tMinOf, tZero1Of, tZero2Of.
    destruct (candidateTimes w type n) as [[[tMax tMin] tZero1] tZero2] eqn:Ec.
    destruct (extremeValues w type) as [yMax yMin] eqn:Ee.
    simpl maximos. simpl minimos. simpl ceros. rewrite !pushIf_In.
    repeat split.
    + intros [[H | [Hv Hp]] | [m [Hin H]]]; auto.
      * right. exists n. rewrite Ec. simpl. auto.
      * right. exists m. simpl. auto.
    + intros [H | [m [[<- | Hin] H]]]; auto.
      * rewrite Ec in H. simpl in H. auto.
      * right. exists m. auto.
    + intros [[H | [Hv Hp]] | [m [Hin H]]]; auto.
      * right. exists n. rewrite Ec. simpl. auto.
      * right. exists m. simpl. auto.
    + intros [H | [m [[<- | Hin] H]]]; auto.
      * rewrite Ec in H. simpl in H. auto.
      * right. exists m. auto.
    + intros [[[H | [Hv Hp]] | [Hv Hp]] | [m [Hin H]]]; auto.
      * right. exists n. rewrite Ec. simpl. auto.
      * right. exists n. rewrite Ec. simpl. auto.
      * right. exists m. simpl. auto.
    + intros [H | [m [[<- | Hin] H]]]; auto.
      * rewrite Ec in H. simpl in H. tauto.
      * right. exists m. auto.
Qed.

Lemma forRange_In_iff (startN endN n : Z) :
  In n (forRange startN endN) <-> (startN <= n <= endN)%Z.
Proof.
  split; [ | apply forRange_In ].
  unfold forRange. rewrite in_map_iff. intros [i [<- Hi]].
  apply in_seq in Hi. lia.
Qed.

(** The counter range of [calculateKeyPoints] covers every index whose
    candidate time, at an offset [c] in [0, 2π) of the cycle, falls in the
    window. *)
Lemma candidate_index_in_range (w : World) (minTime maxTime c : R) (n : Z) :
  0 < calculateOmega w ->
  0 <= c < 2 * PI ->
  minTime <= (c + 2 * PI * IZR n - phase (params w)) / calculateOmega w
          <= maxTime ->
  (Zfloor ((minTime * calculateOmega w + phase (params w)) / (2 * PI)) - 1
   <= n <=
   Zceil ((maxTime * calculateOmega w + phase (params w)) / (2 * PI)) + 1)%Z.
Proof.
  intros Hw [Hc0 Hc1] [Hlo Hhi]. pose proof PI_RGT_0 as Hpi.
  set (om := calculateOmega w) in *. set (ph := phase (params w)) in *.
  assert (H1 : minTime * om + ph <= c + 2 * PI * IZR n).
  { apply (Rmult_le_compat_r om) in Hlo; [ | lra ].
    replace ((c + 2 * PI * IZR n - ph) / om * om)
      with (c + 2 * PI * IZR n - ph) in Hlo by (field; lra).
    lra. }
  assert (H2 : c + 2 * PI * IZR n <= maxTime * om + ph).
  { apply (Rmult_le_compat_r om) in Hhi; [ | lra ].
    replace ((c + 2 * PI * IZR n - ph) / om * om)
      with (c + 2 * PI * IZR n - ph) in Hhi by (field; lra).
    lra. }
  assert (Hi : 0 < / (2 * PI)) by (apply Rinv_0_lt_compat; lra).
  assert (H3 : (minTime * om + ph) / (2 * PI) < IZR n + 1).
  { apply (Rmult_lt_reg_r (2 * PI)); [ lra | ].
    replace ((minTime * om + ph) / (2 * PI) * (2 * PI))
      with (minTime * om + ph) by (field; lra).
    lra. }
  assert (H4 : IZR n <= (maxTime * om + ph) / (2 * PI)).
  { apply (Rmult_le_reg_r (2 * PI)); [ lra | ].
    replace ((maxTime * om + ph) / (2 * PI) * (2 * PI))
      with (maxTime * om + ph) by (field; lra).
    lra. }
  pose proof (Zfloor_bound ((minTime * om + ph) / (2 * PI))) as [Hf _].
  pose proof (Zceil_bound ((maxTime * om + ph) / (2 * PI))) as [_ Hce].
  split.
  - assert (Hz : IZR (Zfloor ((minTime * om + ph) / (2 * PI))) < IZR (n + 1))
      by (rewrite plus_IZR; lra).
    apply lt_IZR in Hz. lia.
  - assert (Hz : IZR n <= IZR (Zceil ((maxTime * om + ph) / (2 * PI))))
      by lra.
    apply le_IZR in Hz. lia.
Qed.

(** Each candidate time is at an offset in [0, 2π) of cycle [n]. *)
Lemma candidateTimes_offsets (w : World) (type : ChartType) (n : Z) :
  let t c := (c + 2 * PI * IZR n - phase (params w)) / calculateOmega w in
  exists cMax cMin cZero1 cZero2 : R,
    (0 <= cMax < 2 * PI /\ tMaxOf w type n = t cMax) /\
    (0 <= cMin < 2 * PI /\ tMinOf w type n = t cMin) /\
    (0 <= cZero1 < 2 * PI /\ tZero1Of w type n = t cZero1) /\
    (0 <= cZero2 < 2 * PI /\ tZero2Of w type n = t cZero2).
Proof.
  cbv zeta. pose proof PI_RGT_0 as Hpi.
  unfold tMaxOf, tMinOf, tZero1Of, tZero2Of, candidateTimes.
  destruct type; cbn [fst snd].
  - exists 0, PI, (PI / 2), (3 * PI / 2).
    repeat split; try lra; f_equal; ring.
  - exists (3 * PI / 2), (PI / 2), 0, PI.
    repeat split; try lra; f_equal; ring.
  - exists PI, 0, (PI / 2), (3 * PI / 2).
    repeat split; try lra; f_equal; ring.
Qed.

Lemma visible_index_in_range (w : World) (minTime maxTime : R)
  (type : ChartType) (n : Z) (t : R) :
  0 < calculateOmega w ->
  t = tMaxOf w type n \/ t = tMinOf w type n \/
  t = tZero1Of w type n \/ t = tZero2Of w type n ->
  visibleAndOccurred w minTime maxTime t = true ->
  In n
    (forRange
       (Zfloor ((minTime * calculateOmega w + phase (params w)) / (2 * PI)) - 1)
       (Zceil ((maxTime * calculateOmega w + phase (params w)) / (2 * PI)) + 1)).
Proof.
  intros Hw Ht Hv. apply forRange_In_iff.
  apply visibleAndOccurred_true in Hv. destruct Hv as [Hlo [Hhi _]].
  pose proof (candidateTimes_offsets w type n) as H. cbv zeta in H.
  destruct H as [c1 [c2 [c3 [c4 [[Hc1 E1] [[Hc2 E2] [[Hc3 E3] [Hc4 E4]]]]]]]].
  destruct Ht as [-> | [-> | [-> | ->]]].
  - apply (candidate_index_in_range w minTime maxTime c1); auto.
    rewrite <- E1. auto.
  - apply (candidate_index_in_range w minTime maxTime c2); auto.
    rewrite <- E2. auto.
  - apply (candidate_index_in_range w minTime maxTime c3); auto.
    rewrite <- E3. auto.
  - apply (candidate_index_in_range w minTime maxTime c4); auto.
    rewrite <- E4. auto.
Qed.

(** X12: with a positive angular frequency, [calculateKeyPoints] returns
    exactly the candidate times, over all integers n, that lie in the
    window and are not after the current time: the counter range from
    [startN] to [endN] misses none of them, and nothing else is returned. *)
Theorem key_points_are_exactly_the_candidates (w : World)
  (minTime maxTime : R) (type : ChartType) (p : Point) :
  0 < calculateOmega w ->
  let kp := calculateKeyPoints w minTime maxTime type in
  let vis := visibleAndOccurred w minTime maxTime in
  (In p (maximos kp) <->
   exists n : Z, vis (tMaxOf w type n) = true /\
     p = mkPoint (tMaxOf w type n) (fst (extremeValues w type))) /\
  (In p (minimos kp) <->
   exists n : Z, vis (tMinOf w type n) = true /\
     p = mkPoint (tMinOf w type n) (snd (extremeValues w type))) /\
  (In p (ceros kp) <->
   exists n : Z,
     (vis (tZero1Of w type n) = true /\ p = mkPoint (tZero1Of w type n) 0) \/
     (vis (tZero2Of w type n) = true /\ p = mkPoint (tZero2Of w type n) 0)).
Proof.
  intros Hw. cbv zeta. unfold calculateKeyPoints. cbv zeta.
  match goal with
  | |- context [fold_left _ ?ns ?acc] =>
      pose proof (keyPointsLoop_In w minTime maxTime type ns acc p) as H;
      set (range := ns) in *
  end.
  cbv zeta in H. destruct H as [Hmax [Hmin Hzero]].
  rewrite Hmax, Hmin, Hzero. simpl.
  assert (Hin : forall n t,
            t = tMaxOf w type n \/ t = tMinOf w type n \/
            t = tZero1Of w type n \/ t = tZero2Of w type n ->
            visibleAndOccurred w minTime maxTime t = true -> In n range)
    by (intros n t Ht Hv;
        apply (visible_index_in_range w minTime maxTime type n t); auto).
  repeat split.
  - intros [[] | [n [_ H]]]. now exists n.
  - intros [n [Hv Hp]]. right. exists n. split; [ | auto ].
    apply (Hin n (tMaxOf w type n)); auto.
  - intros [[] | [n [_ H]]]. now exists n.
  - intros [n [Hv Hp]]. right. exists n. split; [ | auto ].
    apply (Hin n (tMinOf w type n)); auto.
  - intros [[] | [n [_ H]]]. now exists n.
  - intros [n [[Hv Hp] | [Hv Hp]]]; right; exists n; (split; [ | auto ]).
    + apply (Hin n (tZero1Of w type n)); auto.
    + apply (Hin n (tZero2Of w type n)); auto.
Qed.

Lemma key_points_are_exactly_the_candidates_witness :
  let w :=
    setSimulation (setTime 2 (simulation (initialWorld 400 500)))
      (initialWorld 400 500) in
  In (mkPoint (tMaxOf w type_position 0) (fst (extremeValues w type_position)))
     (maximos (calculateKeyPoints w 0 10 type_position)).
Proof.
  cbv zeta.
  set (w := setSimulation (setTime 2 (simulation (initialWorld 400 500)))
              (initialWorld 400 500)).
  assert (Hw : 0 < calculateOmega w) by (apply calculateOmega_pos; simpl; lra).
  apply (key_points_are_exactly_the_candidates w 0 10 type_position _ Hw).
  exists 0%Z. split; [ | reflexivity ].
  apply visibleAndOccurred_true.
  assert (Ht : tMaxOf w type_position 0 = 0).
  { unfold tMaxOf, candidateTimes. cbn [fst snd]. simpl phase.
    unfold Rdiv. ring. }
  rewrite Ht. simpl. lra.
Defined.

(** X13: every returned key point lies in the requested window. *)
Theorem key_points_inside_window (w : World) (minTime maxTime : R)
  (type : ChartType) :
  allKeyPoints (fun p => minTime <= x p <= maxTime)
    (calculateKeyPoints w minTime maxTime type).
Proof.
  apply calculateKeyPoints_invariant.
  intros t v Hv. apply visibleAndOccurred_true in Hv. simpl. tauto.
Qed.

(** ** Key-point annotator: the returned points are the extrema and zeros *)

Lemma cos_period_Z (a : R) (n : Z) : cos (a + 2 * PI * IZR n) = cos a.
Proof.
  destruct (Z_le_gt_dec 0 n) as [Hn | Hn].
  - rewrite <- (Z2Nat.id n Hn), <- INR_IZR_INZ.
    replace (a + 2 * PI * INR (Z.to_nat n))
      with (a + 2 * INR (Z.to_nat n) * PI) by ring.
    apply cos_period.
  - assert (Hm : (0 <= - n)%Z) by lia.
    replace (IZR n) with (- IZR (- n)) by (rewrite opp_IZR; ring).
    rewrite <- (Z2Nat.id (- n) Hm), <- INR_IZR_INZ.
    rewrite <- (cos_period (a + 2 * PI * - INR (Z.to_nat (- n)))
                  (Z.to_nat (- n))).
    f_equal. ring.
Qed.

Lemma sin_period_Z (a : R) (n : Z) : sin (a + 2 * PI * IZR n) = sin a.
Proof.
  destruct (Z_le_gt_dec 0 n) as [Hn | Hn].
  - rewrite <- (Z2Nat.id n Hn), <- INR_IZR_INZ.
    replace (a + 2 * PI * INR (Z.to_nat n))
      with (a + 2 * INR (Z.to_nat n) * PI) by ring.
    apply sin_period.
  - assert (Hm : (0 <= - n)%Z) by lia.
    replace (IZR n) with (- IZR (- n)) by (rewrite opp_IZR; ring).
    rewrite <- (Z2Nat.id (- n) Hm), <- INR_IZR_INZ.
    rewrite <- (sin_period (a + 2 * PI * - INR (Z.to_nat (- n)))
                  (Z.to_nat (- n))).
    f_equal. ring.
Qed.

(** The phase angle at the candidate time of offset [c] in cycle [n]. *)
Lemma candidate_angle (w : World) (c : R) (n : Z) :
  0 < calculateOmega w ->
  calculateOmega w *
    ((c + 2 * PI * IZR n - phase (params w)) / calculateOmega w) +
  phase (params w) = c + 2 * PI * IZR n.
Proof. intros Hw. field. lra. Qed.

Lemma cos_3PI2' : cos (3 * PI / 2) = 0.
Proof. replace (3 * PI / 2) with (3 * (PI / 2)) by field. apply cos_3PI2. Qed.

Lemma sin_3PI2' : sin (3 * PI / 2) = -1.
Proof. replace (3 * PI / 2) with (3 * (PI / 2)) by field. apply sin_3PI2. Qed.

Lemma position_at_offset (w : World) (c : R) (n : Z) :
  0 < calculateOmega w ->
  calculatePosition w
    ((c + 2 * PI * IZR n - phase (params w)) / calculateOmega w) =
  getAmplitude w * cos c.
Proof.
  intros Hw. unfold calculatePosition. cbv zeta.
  now rewrite candidate_angle, cos_period_Z.
Qed.

Lemma velocity_at_offset (w : World) (c : R) (n : Z) :
  0 < calculateOmega w ->
  calculateVelocity w
    ((c + 2 * PI * IZR n - phase (params w)) / calculateOmega w) =
  - getAmplitude w * calculateOmega w * sin c.
Proof.
  intros Hw. unfold calculateVelocity. cbv zeta.
  now rewrite candidate_angle, sin_period_Z.
Qed.

Lemma acceleration_at_offset (w : World) (c : R) (n : Z) :
  0 < calculateOmega w ->
  calculateAcceleration w
    ((c + 2 * PI * IZR n - phase (params w)) / calculateOmega w) =
  - getAmplitude w * calculateOmega w * calculateOmega w * cos c.
Proof.
  intros Hw. unfold calculateAcceleration. cbv zeta.
  now rewrite candidate_angle, cos_period_Z.
Qed.

(** Rewrite a candidate time as the time of offset [c] in its cycle. *)
Ltac as_offset c :=
  match goal with
  | |- context [?f ?w (?e / calculateOmega ?w)] =>
      match e with
      | context [IZR ?n] =>
          replace e with (c + 2 * PI * IZR n - phase (params w)) by ring
      end
  end.

(** The signal at the candidate times: the extreme values and zero. *)
Lemma candidate_values (w : World) (type : ChartType) (n : Z) :
  0 < calculateOmega w ->
  plottedValue w type (tMaxOf w type n) = fst (extremeValues w type) /\
  plottedValue w type (tMinOf w type n) = snd (extremeValues w type) /\
  plottedValue w type (tZero1Of w type n) = 0 /\
  plottedValue w type (tZero2Of w type n) = 0.
Proof.
  intros Hw. pose proof PI_RGT_0 as Hpi.
  unfold plottedValue, tMaxOf, tMinOf, tZero1Of, tZero2Of, candidateTimes,
    extremeValues.
  destruct type; [ destruct (simulationMode w) | | ]; cbn [fst snd];
    (split; [ | split; [ | split ] ]).
  - as_offset 0. rewrite position_at_offset, cos_0 by assumption. ring.
  - as_offset PI. rewrite position_at_offset, cos_PI by assumption. ring.
  - as_offset (PI / 2).
    rewrite position_at_offset, cos_PI2 by assumption. ring.
  - as_offset (3 * PI / 2).
    rewrite position_at_offset, cos_3PI2' by assumption. ring.
  - as_offset 0. rewrite position_at_offset, cos_0 by assumption.
    field. lra.
  - as_offset PI. rewrite position_at_offset, cos_PI by assumption.
    field. lra.
  - as_offset (PI / 2).
    rewrite position_at_offset, cos_PI2 by assumption. field. lra.
  - as_offset (3 * PI / 2).
    rewrite position_at_offset, cos_3PI2' by assumption. field. lra.
  - as_offset (3 * PI / 2).
    rewrite velocity_at_offset, sin_3PI2' by assumption. ring.
  - as_offset (PI / 2).
    rewrite velocity_at_offset, sin_PI2 by assumption. ring.
  - as_offset 0. rewrite velocity_at_offset, sin_0 by assumption. ring.
  - as_offset PI. rewrite velocity_at_offset, sin_PI by assumption. ring.
  - as_offset PI. rewrite acceleration_at_offset, cos_PI by assumption. ring.
  - as_offset 0. rewrite acceleration_at_offset, cos_0 by assumption. ring.
  - as_offset (PI / 2).
    rewrite acceleration_at_offset, cos_PI2 by assumption. ring.
  - as_offset (3 * PI / 2).
    rewrite acceleration_at_offset, cos_3PI2' by assumption. ring.
Qed.

(** The signal never leaves the band between the two extreme values. *)
Lemma plottedValue_between_extremes (w : World) (type : ChartType) (t : R) :
  0 <= getAmplitude w ->
  0 <= calculateOmega w ->
  snd (extremeValues w type) <= plottedValue w type t
                             <= fst (extremeValues w type).
Proof.
  intros HA Hw. pose proof PI_RGT_0 as Hpi.
  unfold plottedValue, extremeValues, calculatePosition, calculateVelocity,
    calculateAcceleration.
  cbv zeta.
  set (A := getAmplitude w) in *. set (om := calculateOmega w) in *.
  set (th := om * t + phase (params w)).
  assert (Hv : 0 <= A * om) by now apply Rmult_le_pos.
  assert (Ha : 0 <= A * om * om) by now apply Rmult_le_pos.
  pose proof (scaled_cos_bound A th HA) as Hc.
  pose proof (scaled_sin_bound (A * om) th Hv) as Hs.
  pose proof (scaled_cos_bound (A * om * om) th Ha) as Hc2.
  destruct type; [ destruct (simulationMode w) | | ]; cbn [fst snd];
    try lra.
  assert (Hd : 0 < 180 / PI) by (apply Rdiv_lt_0_compat; lra).
  replace (A * cos th * 180 / PI) with (A * cos th * (180 / PI)) by (field; lra).
  replace (- A * 180 / PI) with (- A * (180 / PI)) by (field; lra).
  replace (A * 180 / PI) with (A * (180 / PI)) by (field; lra).
  split; nra.
Qed.

(** X14: with a positive angular frequency and a non-negative amplitude,
    every returned maximum lies on the plotted curve at the curve's largest
    value, every returned minimum lies on it at its smallest value, and
    every returned zero is a point where the curve is 0. *)
Theorem key_points_are_extrema_and_zeros (w : World) (minTime maxTime : R)
  (type : ChartType) :
  0 < calculateOmega w ->
  0 <= getAmplitude w ->
  let kp := calculateKeyPoints w minTime maxTime type in
  Forall (fun p => y p = plottedValue w type (x p) /\
                   forall t, plottedValue w type t <= y p) (maximos kp) /\
  Forall (fun p => y p = plottedValue w type (x p) /\
                   forall t, y p <= plottedValue w type t) (minimos kp) /\
  Forall (fun p => y p = 0 /\ plottedValue w type (x p) = 0) (ceros kp).
Proof.
  intros Hw HA. cbv zeta. unfold calculateKeyPoints. cbv zeta.
  match goal with
  | |- context [fold_left _ ?ns ?acc] =>
      pose proof (fun p => keyPointsLoop_In w minTime maxTime type ns acc p)
        as H;
      set (range := ns) in *
  end.
  cbv zeta in H.
  assert (Hb : forall t,
            snd (extremeValues w type) <= plottedValue w type t
                                       <= fst (extremeValues w type))
    by (intros t; apply plottedValue_between_extremes; lra).
  repeat split; apply Forall_forall; intros p Hp.
  - apply (proj1 (H p)) in Hp. destruct Hp as [[] | [n [_ [_ ->]]]].
    destruct (candidate_values w type n Hw) as [Hv _]. simpl.
    split; [ now rewrite Hv | intros t; apply Hb ].
  - apply (proj1 (proj2 (H p))) in Hp. destruct Hp as [[] | [n [_ [_ ->]]]].
    destruct (candidate_values w type n Hw) as [_ [Hv _]]. simpl.
    split; [ now rewrite Hv | intros t; apply Hb ].
  - apply (proj2 (proj2 (H p))) in Hp.
    destruct Hp as [[] | [n [_ [[_ ->] | [_ ->]]]]]; simpl;
      destruct (candidate_values w type n Hw) as [_ [_ [Hz1 Hz2]]]; auto.
Qed.

Lemma key_points_are_extrema_and_zeros_witness :
  let w :=
    setSimulation (setTime 2 (simulation (initialWorld 400 500)))
      (initialWorld 400 500) in
  Forall (fun p => y p = plottedValue w type_velocity (x p) /\
                   forall t, plottedValue w type_velocity t <= y p)
    (maximos (calculateKeyPoints w 0 10 type_velocity)).
Proof.
  cbv zeta.
  apply (key_points_are_extrema_and_zeros
           (setSimulation (setTime 2 (simulation (initialWorld 400 500)))
              (initialWorld 400 500)) 0 10 type_velocity).
  - apply calculateOmega_pos; simpl; lra.
  - unfold getAmplitude. simpl. lra.
Defined.

(** ** Sample buffer and charts *)

(** The eviction loop drops the same number of leading points from each of
    the three series, all of them older than [minTime] in the position
    series. *)
Lemma evictOld_skipn (minTime : R) (pos vel acc : list Point) :
  exists k : nat,
    evictOld minTime pos vel acc = (skipn k pos, skipn k vel, skipn k acc) /\
    Forall (fun p => x p < minTime) (firstn k pos).
Proof.
  revert vel acc. induction pos as [| p pos IH]; intros vel acc.
  - exists 0%nat. simpl. auto.
  - simpl. destruct (Rltb (x p) minTime) eqn:E.
    + destruct (IH (tl vel) (tl acc)) as [k [Hk Hf]].
      exists (S k). split.
      * rewrite Hk. destruct vel, acc; simpl; rewrite ?skipn_nil; reflexivity.
      * simpl. constructor; [ now apply Rltb_true | exact Hf ].
    + exists 0%nat. simpl. auto.
Qed.

Lemma Forall_skipn (P : Point -> Prop) (k : nat) (l : list Point) :
  Forall P l -> Forall P (skipn k l).
Proof.
  intros H. rewrite <- (firstn_skipn k l) in H.
  now apply Forall_app in H.
Qed.

Lemma chartWindow_cases (w : World) :
  let t := time (simulation w) in
  let W := timeWindow (graphData w) in
  (t <= W /\ chartWindow w = (0, W)) \/
  (W < t /\ chartWindow w = (t - W, t)).
Proof.
  cbv zeta. unfold chartWindow.
  destruct (Rleb (time (simulation w)) (timeWindow (graphData w))) eqn:E.
  - left. split; [ now apply Rleb_true | reflexivity ].
  - right. split; [ now apply Rleb_false | reflexivity ].
Qed.

(** X15: for a non-negative [timeWindow], the window shown by a chart is
    always [timeWindow] wide; it never starts before the current time minus
    [timeWindow] - so it lies within what the buffer retains - and it
    contains the current time whenever that time is not negative. *)
Theorem chart_window_shape (w : World) :
  0 <= timeWindow (graphData w) ->
  snd (chartWindow w) - fst (chartWindow w) = timeWindow (graphData w) /\
  time (simulation w) - timeWindow (graphData w) <= fst (chartWindow w) /\
  (0 <= time (simulation w) ->
   fst (chartWindow w) <= time (simulation w) <= snd (chartWindow w)).
Proof.
  intros HW.
  destruct (chartWindow_cases w) as [[Ht ->] | [Ht ->]]; simpl;
    repeat split; lra.
Qed.

Lemma chart_window_shape_witness :
  let w :=
    setSimulation (setTime 7 (simulation (initialWorld 400 500)))
      (initialWorld 400 500) in
  snd (chartWindow w) - fst (chartWindow w) = 5.
Proof.
  apply (chart_window_shape
           (setSimulation (setTime 7 (simulation (initialWorld 400 500)))
              (initialWorld 400 500))).
  simpl. lra.
Defined.

(** The series after a frame tick: one append at the new elapsed time. *)
Lemma animate_graphData (timestamp : R) (w : World) :
  isRunning (simulation w) = true ->
  let t' := time (simulation (animate timestamp w)) in
  graphData (animate timestamp w) =
  graphData
    (addDataPoint t' (calculatePosition w t') (calculateVelocity w t')
       (calculateAcceleration w t') w) /\
  params (animate timestamp w) = params w /\
  simulationMode (animate timestamp w) = simulationMode w.
Proof.
  intros Hr. cbv zeta.
  pose proof (animate_simulation w timestamp Hr) as Ht. cbv zeta in Ht.
  destruct Ht as [Ht _]. rewrite Ht. clear Ht. revert Hr.
  destruct w as [m p [t r a l s] v d g h]. simpl. intros ->.
  unfold animate, addDataPoint. cbv zeta.
  unfold calculatePosition, calculateVelocity, calculateAcceleration,
    calculateOmega, getAmplitude.
  simpl.
  destruct (Req_dec_T l 0); destruct m; simpl;
    destruct (evictOld _ _ _ _) as [[pos' vel'] acc'];
    simpl; repeat split; reflexivity.
Qed.

Lemma addDataPoint_series (t p v a : R) (w : World) :
  exists k : nat,
    position (graphData (addDataPoint t p v a w)) =
      skipn k (position (graphData w) ++
               [mkPoint t match simulationMode w with
                          | pendulum => p * 180 / PI
                          | spring => p
                          end]) /\
    velocity (graphData (addDataPoint t p v a w)) =
      skipn k (velocity (graphData w) ++ [mkPoint t v]) /\
    acceleration (graphData (addDataPoint t p v a w)) =
      skipn k (acceleration (graphData w) ++ [mkPoint t a]) /\
    Forall (fun q => x q < t - timeWindow (graphData w) - 1 / 2)
      (firstn k (position (graphData w) ++
                 [mkPoint t match simulationMode w with
                            | pendulum => p * 180 / PI
                            | spring => p
                            end])).
Proof.
  unfold addDataPoint. cbv zeta.
  match goal with
  | |- context [evictOld ?m ?ps ?vs ?cs] =>
      destruct (evictOld_skipn m ps vs cs) as [k [Hk Hf]]; rewrite Hk
  end.
  exists k. simpl.
  replace (t - timeWindow (graphData w) - 5 / 10)
    with (t - timeWindow (graphData w) - 1 / 2) in Hf by lra.
  auto.
Qed.

(** The series after a frame tick, chart by chart: the new sample is
    appended and a common number of leading samples is dropped. *)
Lemma animate_series (timestamp : R) (w : World) :
  isRunning (simulation w) = true ->
  let w' := animate timestamp w in
  let t' := time (simulation w') in
  exists k : nat,
    (forall type : ChartType,
       seriesOf w' type =
       skipn k (seriesOf w type ++ [mkPoint t' (plottedValue w type t')])) /\
    Forall (fun q => x q < t' - timeWindow (graphData w) - 1 / 2)
      (firstn k (seriesOf w type_position ++
                 [mkPoint t' (plottedValue w type_position t')])).
Proof.
  intros Hr. cbv zeta.
  destruct (animate_graphData timestamp w Hr) as [Hg _]. cbv zeta in Hg.
  set (t' := time (simulation (animate timestamp w))) in *.
  destruct (addDataPoint_series t' (calculatePosition w t')
              (calculateVelocity w t') (calculateAcceleration w t') w)
    as [k [Hp [Hv [Ha Hf]]]].
  exists k. split.
  - intros type. unfold seriesOf, plottedValue. rewrite Hg.
    destruct type; [ rewrite Hp | rewrite Hv | rewrite Ha ]; reflexivity.
  - unfold seriesOf, plottedValue.
    destruct (simulationMode w); exact Hf.
Qed.

Lemma Forall_x_map (b : R) (l : list Point) :
  Forall (fun q => x q < b) l <-> Forall (fun r => r < b) (map x l).
Proof. now rewrite Forall_map. Qed.

Lemma parallel_seriesOf (w : World) (type : ChartType) :
  parallel (graphData w) ->
  map x (seriesOf w type) = map x (seriesOf w type_position).
Proof.
  intros [H1 H2]. destruct type; simpl; congruence.
Qed.

(** X16: a frame tick of a running simulation, with the three series
    parallel, appends the new sample to each series and drops the same
    number of leading samples from each; every dropped sample is older than
    the start of the window that the charts show after the tick, so no
    sample that a chart still shows is ever evicted. *)
Theorem frame_never_evicts_visible_sample (timestamp : R) (w : World) :
  isRunning (simulation w) = true ->
  parallel (graphData w) ->
  let w' := animate timestamp w in
  let t' := time (simulation w') in
  exists k : nat,
    forall type : ChartType,
      seriesOf w' type =
        skipn k (seriesOf w type ++ [mkPoint t' (plottedValue w type t')]) /\
      Forall (fun q => x q < fst (chartWindow w'))
        (firstn k (seriesOf w type ++ [mkPoint t' (plottedValue w type t')])).
Proof.
  intros Hr Hpar. cbv zeta.
  destruct (animate_series timestamp w Hr) as [k [Hs Hf]]. cbv zeta in Hs, Hf.
  set (w' := animate timestamp w) in *.
  set (t' := time (simulation w')) in *.
  exists k. intros type. split; [ apply Hs | ].
  assert (Hwin : t' - timeWindow (graphData w) - 1 / 2 < fst (chartWindow w')).
  { assert (HW : timeWindow (graphData w') = timeWindow (graphData w)).
    { unfold w'. destruct (animate_graphData timestamp w Hr) as [Hg _].
      cbv zeta in Hg. rewrite Hg.
      apply addDataPoint_frame. }
    destruct (chartWindow_cases w') as [[Ht ->] | [Ht ->]];
      cbv zeta in Ht; rewrite HW in *; fold t' in Ht |- *; simpl; lra. }
  apply Forall_x_map. rewrite <- firstn_map, map_app. simpl map.
  rewrite (parallel_seriesOf w type Hpar).
  apply Forall_x_map in Hf. rewrite <- firstn_map, map_app in Hf.
  simpl map in Hf.
  eapply Forall_impl; [ | exact Hf ]. simpl. intros r Hr'. lra.
Qed.

Lemma frame_never_evicts_visible_sample_witness :
  let w := startSimulation (initialWorld 400 500) in
  let w' := animate 1000 w in
  exists k : nat,
    forall type : ChartType,
      seriesOf w' type =
        skipn k (seriesOf w type ++
                 [mkPoint (time (simulation w'))
                    (plottedValue w type (time (simulation w')))]) /\
      Forall (fun q => x q < fst (chartWindow w'))
        (firstn k (seriesOf w type ++
                   [mkPoint (time (simulation w'))
                      (plottedValue w type (time (simulation w')))])).
Proof.
  apply (frame_never_evicts_visible_sample 1000
           (startSimulation (initialWorld 400 500))).
  - reflexivity.
  - split; reflexivity.
Defined.

Lemma plottedValue_ext (w w' : World) (type : ChartType) (t : R) :
  params w' = params w -> simulationMode w' = simulationMode w ->
  plottedValue w' type t = plottedValue w type t.
Proof.
  intros Hp Hm.
  unfold plottedValue, calculatePosition, calculateVelocity,
    calculateAcceleration, calculateOmega, getAmplitude.
  now rewrite Hp, Hm.
Qed.

Lemma animate_onCurve (timestamp : R) (w : World) :
  onCurve w -> onCurve (animate timestamp w).
Proof.
  intros Hc. destruct (isRunning (simulation w)) eqn:Hr.
  - destruct (animate_series timestamp w Hr) as [k [Hs _]]. cbv zeta in Hs.
    destruct (animate_graphData timestamp w Hr) as [_ [Hp Hm]].
    intros type. rewrite Hs. apply Forall_skipn. apply Forall_app. split.
    + eapply Forall_impl; [ | apply (Hc type) ].
      intros q Hq. now rewrite (plottedValue_ext w _ type _ Hp Hm).
    + constructor; [ | constructor ]. simpl.
      now rewrite (plottedValue_ext w _ type _ Hp Hm).
  - unfold animate. rewrite Hr. exact Hc.
Qed.

(** X17: frames keep every buffered sample on the analytic curve of its
    chart: if each sample's value is the plotted signal at the sample's
    time, the same holds after any run of frames (the parameters and the
    mode are not touched by frames). *)
Theorem frames_keep_samples_on_curve (timestamps : list R) (w : World) :
  onCurve w ->
  onCurve (runFrames timestamps w) /\
  params (runFrames timestamps w) = params w /\
  simulationMode (runFrames timestamps w) = simulationMode w.
Proof.
  revert w. induction timestamps as [| ts rest IH]; intros w Hc.
  - simpl. auto.
  - change (runFrames (ts :: rest) w) with (runFrames rest (animate ts w)).
    destruct (IH (animate ts w) (animate_onCurve ts w Hc)) as [H1 [H2 H3]].
    split; [ exact H1 | ].
    rewrite H2, H3.
    destruct (isRunning (simulation w)) eqn:Hr.
    + destruct (animate_graphData ts w Hr) as [_ [Hp Hm]]. auto.
    + unfold animate. rewrite Hr. auto.
Qed.

Lemma frames_keep_samples_on_curve_witness :
  onCurve (runFrames [1000; 1016; 1033] (startSimulation (initialWorld 400 500))).
Proof.
  apply (frames_keep_samples_on_curve [1000; 1016; 1033]
           (startSimulation (initialWorld 400 500))).
  intros type. destruct type; constructor.
Defined.

Lemma copy_points (l : list Point) :
  map (fun point => mkPoint (x point) (y point)) l = l.
Proof.
  induction l as [| [px py] l IH]; simpl; [ reflexivity | now rewrite IH ].
Qed.

Lemma renderChart_fields (w : World) (data : list Point) (maxYValue : R)
  (type : ChartType) :
  chartData (renderChart w data maxYValue type) = data /\
  xAxisMin (renderChart w data maxYValue type) = fst (chartWindow w) /\
  xAxisMax (renderChart w data maxYValue type) = snd (chartWindow w) /\
  yAxisMin (renderChart w data maxYValue type) = - maxYValue /\
  yAxisMax (renderChart w data maxYValue type) = maxYValue /\
  chartKeyPoints (renderChart w data maxYValue type) =
    calculateKeyPoints w (fst (chartWindow w)) (snd (chartWindow w)) type.
Proof.
  unfold renderChart. destruct (chartWindow w) as [minTime maxTime]. simpl.
  rewrite copy_points. tauto.
Qed.

(** X18: each chart drawn by [drawAllGraphs] gets its own series unchanged,
    the time window of [chartWindow] on the x axis, a y axis symmetric
    about 0, and key points that all lie inside the x axis and not after
    the current time. *)
Theorem charts_show_series_window_and_key_points (w : World)
  (type : ChartType) :
  let c := chartOf (drawAllGraphs w) type in
  chartData c = seriesOf w type /\
  (xAxisMin c, xAxisMax c) = chartWindow w /\
  yAxisMin c = - yAxisMax c /\
  allKeyPoints
    (fun p => xAxisMin c <= x p <= xAxisMax c /\ x p <= time (simulation w))
    (chartKeyPoints c).
Proof.
  cbv zeta. unfold drawAllGraphs. cbv zeta.
  destruct type; cbn [chartOf fst snd];
    match goal with
    | |- context [renderChart w ?data ?m ?ty] =>
        destruct (renderChart_fields w data m ty)
          as [Hd [Hx0 [Hx1 [Hy0 [Hy1 Hk]]]]];
        rewrite Hd, Hx0, Hx1, Hy0, Hy1, Hk
    end;
    (split; [ reflexivity | ]);
    (split; [ now destruct (chartWindow w) | ]);
    (split; [ reflexivity | ]);
    apply calculateKeyPoints_invariant;
    intros t v Hv; apply visibleAndOccurred_true in Hv; simpl; tauto.
Qed.

(** X19: with the amplitude between 0 and the mode's maximum amplitude and
    a non-negative angular frequency, the plotted signal of each chart is,
    at every time, within the y axis that [drawAllGraphs] gives the chart:
    no sample is ever clipped. *)
Theorem charts_never_clip (w : World) (type : ChartType) (t : R) :
  0 <= getAmplitude w <=
    match simulationMode w with
    | spring => MAX_AMPLITUDE_SPRING
    | pendulum => MAX_AMPLITUDE_PENDULUM
    end ->
  0 <= calculateOmega w ->
  yAxisMin (chartOf (drawAllGraphs w) type) <= plottedValue w type t
    <= yAxisMax (chartOf (drawAllGraphs w) type).
Proof.
  intros [HA0 HA1] Hw. pose proof PI_RGT_0 as Hpi.
  pose proof (plottedValue_between_extremes w type t HA0 Hw) as Hb.
  unfold drawAllGraphs. cbv zeta.
  destruct type; cbn [chartOf fst snd];
    match goal with
    | |- context [renderChart w ?data ?m ?ty] =>
        destruct (renderChart_fields w data m ty)
          as [_ [_ [_ [Hy0 [Hy1 _]]]]];
        rewrite Hy0, Hy1
    end;
    unfold extremeValues in Hb;
    set (A := getAmplitude w) in *; set (om := calculateOmega w) in *.
  - destruct (simulationMode w); cbn [fst snd] in Hb.
    + lra.
    + assert (Hd : 0 < 180 / PI) by (apply Rdiv_lt_0_compat; lra).
      replace (MAX_AMPLITUDE_PENDULUM * 180 / PI * (11 / 10))
        with (MAX_AMPLITUDE_PENDULUM * (180 / PI) * (11 / 10))
        by (field; lra).
      replace (- A * 180 / PI) with (- A * (180 / PI)) in Hb by (field; lra).
      replace (A * 180 / PI) with (A * (180 / PI)) in Hb by (field; lra).
      assert (A * (180 / PI) <= MAX_AMPLITUDE_PENDULUM * (180 / PI))
        by (apply Rmult_le_compat_r; lra).
      assert (0 <= A * (180 / PI)) by (apply Rmult_le_pos; lra).
      lra.
  - cbn [fst snd] in Hb.
    match goal with
    | |- - (?M * om * _) <= _ <= _ =>
        assert (A * om <= M * om) by (apply Rmult_le_compat_r; assumption);
        assert (0 <= A * om) by (apply Rmult_le_pos; assumption)
    end.
    lra.
  - cbn [fst snd] in Hb.
    match goal with
    | |- - (?M * om * om * _) <= _ <= _ =>
        assert (A * om <= M * om) by (apply Rmult_le_compat_r; assumption);
        assert (A * om * om <= M * om * om)
          by (apply Rmult_le_compat_r; assumption);
        assert (0 <= A * om * om)
          by (apply Rmult_le_pos; [ apply Rmult_le_pos | ]; assumption)
    end.
    lra.
Qed.

Lemma charts_never_clip_witness :
  yAxisMin (chartOf (drawAllGraphs (initialWorld 400 500)) type_velocity)
  <= plottedValue (initialWorld 400 500) type_velocity 3
  <= yAxisMax (chartOf (drawAllGraphs (initialWorld 400 500)) type_velocity).
Proof.
  apply (charts_never_clip (initialWorld 400 500) type_velocity 3).
  - unfold getAmplitude, MAX_AMPLITUDE_SPRING. simpl. lra.
  - apply Rlt_le. apply initialWorld_omega_pos.
Defined.

(** ** Drag interaction *)

Lemma clamp_bounds (lo hi v : R) :
  lo <= hi -> lo <= Rmax lo (Rmin hi v) <= hi.
Proof.
  intros H. split; [ apply Rmax_l | ].
  apply Rmax_lub; [ exact H | apply Rmin_l ].
Qed.

Lemma clamp_inside (lo hi v : R) :
  lo <= v <= hi -> Rmax lo (Rmin hi v) = v.
Proof.
  intros [H1 H2]. rewrite Rmin_right by exact H2. now apply Rmax_right.
Qed.

Lemma position_period_shift (w : World) (t : R) :
  0 < calculateOmega w ->
  calculatePosition w (t + calculatePeriod w) = calculatePosition w t.
Proof.
  intros Hw. unfold calculatePosition. cbv zeta.
  replace (calculateOmega w * (t + calculatePeriod w) + phase (params w))
    with (calculateOmega w * t + phase (params w) + 2 * INR 1 * PI)
    by (unfold calculatePeriod; simpl INR; field; lra).
  now rewrite cos_period.
Qed.

(** The position at the back-solved time, whatever the dragged ratio. *)
Lemma position_at_back_solved_time (w : World) (r : R) :
  0 < calculateOmega w ->
  -1 <= r <= 1 ->
  let t0 := (acos r - phase (params w)) / calculateOmega w in
  calculatePosition w (if Rltb t0 0 then t0 + calculatePeriod w else t0) =
  getAmplitude w * r.
Proof.
  intros Hw Hr. cbv zeta.
  set (t0 := (acos r - phase (params w)) / calculateOmega w).
  assert (H0 : calculatePosition w t0 = getAmplitude w * r).
  { unfold calculatePosition, t0. cbv zeta.
    replace (calculateOmega w *
             ((acos r - phase (params w)) / calculateOmega w) +
             phase (params w))
      with (acos r) by (field; lra).
    now rewrite cos_acos. }
  destruct (Rltb t0 0); [ now rewrite position_period_shift | exact H0 ].
Qed.

(** X20: in spring mode, with a positive amplitude and angular frequency
    and the phase in [0, 2π], a drag of the mass ends (two loop tests
    suffice) with an internal time at which the analytic position is
    exactly where the mass was dragged to; the mass is painted there, never
    further than the amplitude from equilibrium, and the displayed time is
    0. *)
Theorem spring_drag_round_trip (w : World) (mouseY : R) (fuel : nat) :
  simulationMode w = spring ->
  0 < amplitude (params w) ->
  0 < calculateOmega w ->
  0 <= phase (params w) <= 2 * PI ->
  (2 <= fuel)%nat ->
  exists (t : R) (w' : World),
    handleSpringDrag fuel mouseY w = Some (t, w') /\
    calculatePosition w t * PIXELS_PER_METER =
      springDragDisplacement mouseY w /\
    Rabs (springDragDisplacement mouseY w) <=
      amplitude (params w) * PIXELS_PER_METER /\
    massPosition (dragState w') =
      mkPoint (canvasWidth (host w) / 2)
        (canvasHeight (host w) / 2 + springDragDisplacement mouseY w) /\
    time (simulation w') = 0.
Proof.
  intros Hm HA Hw Hph Hf.
  unfold handleSpringDrag. cbv zeta.
  fold (springDragDisplacement mouseY w).
  set (D := springDragDisplacement mouseY w).
  assert (HD : - (amplitude (params w) * PIXELS_PER_METER) <= D
               <= amplitude (params w) * PIXELS_PER_METER).
  { unfold D, springDragDisplacement. cbv zeta. apply clamp_bounds.
    unfold PIXELS_PER_METER. lra. }
  unfold PIXELS_PER_METER in *.
  set (A := amplitude (params w)) in *.
  assert (Hratio : -1 <= D / 320 / A <= 1).
  { split.
    - apply (Rmult_le_reg_r (320 * A)); [ lra | ].
      replace (D / 320 / A * (320 * A)) with D by (field; lra). lra.
    - apply (Rmult_le_reg_r (320 * A)); [ lra | ].
      replace (D / 320 / A * (320 * A)) with D by (field; lra). lra. }
  rewrite (clamp_inside (-1) 1 (D / 320 / A) Hratio).
  pose proof (backSolve_range w (D / 320 / A) Hph Hw) as [Hlo _].
  rewrite (normalizeInternalTime_two fuel _ _ Hf Hlo).
  eexists. eexists. split; [ reflexivity | ].
  split; [ | split; [ | split ] ].
  - pose proof (position_at_back_solved_time w (D / 320 / A) Hw Hratio) as Hp.
    cbv zeta in Hp. rewrite Hp.
    unfold getAmplitude. rewrite Hm. fold A. field. lra.
  - apply Rabs_le. lra.
  - reflexivity.
  - reflexivity.
Qed.

Lemma spring_drag_round_trip_witness :
  exists (t : R) (w' : World),
    handleSpringDrag 2 260 (initialWorld 400 500) = Some (t, w') /\
    calculatePosition (initialWorld 400 500) t * PIXELS_PER_METER =
      springDragDisplacement 260 (initialWorld 400 500).
Proof.
  assert (Hph : 0 <= phase (params (initialWorld 400 500)) <= 2 * PI)
    by (simpl; pose proof PI_RGT_0; lra).
  assert (HA : 0 < amplitude (params (initialWorld 400 500)))
    by (simpl; lra).
  destruct (spring_drag_round_trip (initialWorld 400 500) 260 2 eq_refl HA
              (initialWorld_omega_pos 400 500) Hph (le_n 2))
    as [t [w' [H1 [H2 _]]]].
  exists t, w'. split; [ exact H1 | exact H2 ].
Defined.

(** X21: in pendulum mode, with a positive maximum angle and angular
    frequency and the phase in [0, 2π], a drag of the bob ends with an
    internal time at which the analytic angle is exactly the angle the bob
    was dragged to, which never exceeds the maximum angle; the displayed
    time is 0. *)
Theorem pendulum_drag_round_trip (w : World) (mouseX mouseY : R)
  (fuel : nat) :
  simulationMode w = pendulum ->
  0 < pendulumAngle (params w) ->
  0 < calculateOmega w ->
  0 <= phase (params w) <= 2 * PI ->
  (2 <= fuel)%nat ->
  exists (t : R) (w' : World),
    handlePendulumDrag fuel mouseX mouseY w = Some (t, w') /\
    calculatePosition w t = pendulumDragAngle mouseX mouseY w /\
    Rabs (pendulumDragAngle mouseX mouseY w) <= getAmplitude w /\
    time (simulation w') = 0.
Proof.
  intros Hm HA Hw Hph Hf. pose proof PI_RGT_0 as Hpi.
  unfold handlePendulumDrag. cbv zeta.
  fold (pendulumDragAngle mouseX mouseY w).
  set (th := pendulumDragAngle mouseX mouseY w).
  set (A := pendulumAngle (params w) * PI / 180).
  assert (HA' : 0 < A)
    by (unfold A; apply Rdiv_lt_0_compat; [ apply Rmult_lt_0_compat | ]; lra).
  assert (Hth : - A <= th <= A).
  { unfold th, pendulumDragAngle. cbv zeta. fold A. apply clamp_bounds. lra. }
  assert (Hratio : -1 <= th / A <= 1).
  { split.
    - apply (Rmult_le_reg_r A); [ lra | ].
      replace (th / A * A) with th by (field; lra). lra.
    - apply (Rmult_le_reg_r A); [ lra | ].
      replace (th / A * A) with th by (field; lra). lra. }
  rewrite (clamp_inside (-1) 1 (th / A) Hratio).
  pose proof (backSolve_range w (th / A) Hph Hw) as [Hlo _].
  rewrite (normalizeInternalTime_two fuel _ _ Hf Hlo).
  eexists. eexists. split; [ reflexivity | ].
  assert (HgA : getAmplitude w = A) by (unfold getAmplitude; now rewrite Hm).
  split; [ | split ].
  - pose proof (position_at_back_solved_time w (th / A) Hw Hratio) as Hp.
    cbv zeta in Hp. rewrite Hp, HgA. field. lra.
  - rewrite HgA. apply Rabs_le. lra.
  - reflexivity.
Qed.

Lemma pendulum_drag_round_trip_witness :
  exists (t : R) (w' : World),
    handlePendulumDrag 2 230 200 (switchMode pendulum (initialWorld 400 500)) =
      Some (t, w') /\
    calculatePosition (switchMode pendulum (initialWorld 400 500)) t =
      pendulumDragAngle 230 200 (switchMode pendulum (initialWorld 400 500)).
Proof.
  set (w := switchMode pendulum (initialWorld 400 500)).
  assert (Hph : 0 <= phase (params w) <= 2 * PI)
    by (simpl; pose proof PI_RGT_0; lra).
  assert (HA : 0 < pendulumAngle (params w)) by (simpl; lra).
  assert (Hw : 0 < calculateOmega w)
    by (apply calculateOmega_pos; simpl; lra).
  destruct (pendulum_drag_round_trip w 230 200 2 eq_refl HA Hw Hph (le_n 2))
    as [t [w' [H1 [H2 _]]]].
  exists t, w'. split; [ exact H1 | exact H2 ].
Defined.

(** ** Painting and hit-testing *)

(** X22: after a frame tick of a running simulation the painted mass is
    where the motion says: in spring mode at the canvas centre line, the
    analytic position (in pixels) below the equilibrium; in pendulum mode
    on the circle of the rope's length around the pivot, at the analytic
    angle from the vertical. *)
Theorem painted_mass_follows_motion (timestamp : R) (w : World) :
  isRunning (simulation w) = true ->
  let w' := animate timestamp w in
  let pos := calculatePosition w (time (simulation w')) in
  let pivotX := canvasWidth (host w) / 2 in
  match simulationMode w with
  | spring =>
      massPosition (dragState w') =
        mkPoint pivotX (canvasHeight (host w) / 2 + pos * PIXELS_PER_METER) /\
      massRadius (dragState w') = 25
  | pendulum =>
      let ropeLength := 80 + (pendulumLength (params w) - 5 / 10) * 64 in
      massPosition (dragState w') =
        mkPoint (pivotX + ropeLength * sin pos) (50 + ropeLength * cos pos) /\
      massRadius (dragState w') = 20 /\
      (x (massPosition (dragState w')) - pivotX) ^ 2 +
      (y (massPosition (dragState w')) - 50) ^ 2 = ropeLength ^ 2
  end.
Proof.
  intros Hr. cbv zeta.
  pose proof (animate_simulation w timestamp Hr) as Ht. cbv zeta in Ht.
  destruct Ht as [Ht _]. rewrite Ht. clear Ht. revert Hr.
  destruct w as [m p [t r a l s] v d g h]. simpl. intros ->.
  unfold animate, addDataPoint. cbv zeta.
  unfold calculatePosition, calculateVelocity, calculateAcceleration,
    calculateOmega, getAmplitude.
  simpl.
  destruct (Req_dec_T l 0); destruct m; simpl;
    destruct (evictOld _ _ _ _) as [[pos' vel'] acc'];
    simpl; repeat split; try reflexivity;
    match goal with
    | |- context [?L * sin ?a] =>
        pose proof (sin2_cos2 a) as Hsc; unfold Rsqr in Hsc;
        transitivity (L ^ 2 * (sin a * sin a + cos a * cos a));
        [ ring | rewrite Hsc; ring ]
    end.
Qed.

Lemma painted_mass_follows_motion_witness :
  let w := startSimulation (initialWorld 400 500) in
  massRadius (dragState (animate 1000 w)) = 25.
Proof.
  cbv zeta.
  pose proof (painted_mass_follows_motion 1000
                (startSimulation (initialWorld 400 500)) eq_refl) as H.
  cbv zeta in H.
  change (simulationMode (startSimulation (initialWorld 400 500)))
    with spring in H.
  exact (proj2 H).
Defined.




(** ** Key-point annotator: spacing of the candidate times *)

(** X24: with a positive angular frequency, for every signal the candidate
    times are evenly spaced: consecutive maxima, and consecutive minima,
    are one period apart; maxima and minima are half a period apart; the
    two zeros of a cycle are half a period apart, and so are the second
    zero and the first zero of the next cycle. *)
Theorem candidate_times_evenly_spaced (w : World) (type : ChartType) (n : Z) :
  0 < calculateOmega w ->
  tMaxOf w type (n + 1) - tMaxOf w type n = calculatePeriod w /\
  tMinOf w type (n + 1) - tMinOf w type n = calculatePeriod w /\
  Rabs (tMaxOf w type n - tMinOf w type n) = calculatePeriod w / 2 /\
  tZero2Of w type n - tZero1Of w type n = calculatePeriod w / 2 /\
  tZero1Of w type (n + 1) - tZero2Of w type n = calculatePeriod w / 2.
Proof.
  intros Hw. pose proof PI_RGT_0 as Hpi.
  assert (Hp : 0 < calculatePeriod w) by now apply calculatePeriod_pos.
  assert (Hhalf : Rabs (calculatePeriod w / 2) = calculatePeriod w / 2)
    by (apply Rabs_right; lra).
  assert (Hhalf' : Rabs (- (calculatePeriod w / 2)) = calculatePeriod w / 2)
    by (rewrite Rabs_Ropp; exact Hhalf).
  unfold tMaxOf, tMinOf, tZero1Of, tZero2Of, candidateTimes.
  rewrite plus_IZR.
  destruct type; cbn [fst snd];
    (split; [ unfold calculatePeriod; field; lra | ]);
    (split; [ unfold calculatePeriod; field; lra | ]);
    (split; [ | split; unfold calculatePeriod; field; lra ]).
  - match goal with
    | |- Rabs ?d = _ =>
        replace d with (- (calculatePeriod w / 2))
          by (unfold calculatePeriod; field; lra)
    end.
    exact Hhalf'.
  - match goal with
    | |- Rabs ?d = _ =>
        replace d with (calculatePeriod w / 2)
          by (unfold calculatePeriod; field; lra)
    end.
    exact Hhalf.
  - match goal with
    | |- Rabs ?d = _ =>
        replace d with (calculatePeriod w / 2)
          by (unfold calculatePeriod; field; lra)
    end.
    exact Hhalf.
Qed.

Lemma candidate_times_evenly_spaced_witness :
  tMaxOf (initialWorld 400 500) type_position (0 + 1) -
  tMaxOf (initialWorld 400 500) type_position 0 =
  calculatePeriod (initialWorld 400 500).
Proof.
  apply (candidate_times_evenly_spaced (initialWorld 400 500) type_position 0).
  apply initialWorld_omega_pos.
Defined.

(** ** Drag back-solve: the loop in general *)

Lemma normalizeInternalTime_additions (period : R) (n : nat) (t0 : R) :
  0 < period ->
  0 <= t0 + INR n * period ->
  exists (k : nat) (t : R),
    (k <= n)%nat /\ t = t0 + INR k * period /\
    0 <= t /\ (t0 < 0 -> t < period) /\
    forall fuel : nat, (n < fuel)%nat ->
      normalizeInternalTime fuel period t0 = Some t.
Proof.
  intros Hp. revert t0. induction n as [| n IH]; intros t0 Hn.
  - exists 0%nat, t0. simpl in *.
    repeat split; try lra; try lia.
    intros fuel Hf. destruct fuel; [ lia | ]. simpl.
    replace (Rltb t0 0) with false
      by (symmetry; apply Rltb_false; lra).
    reflexivity.
  - destruct (Rlt_dec t0 0) as [Hneg | Hpos].
    + destruct (IH (t0 + period)) as [k [t [Hk [Ht [H0 [Hlt Hrun]]]]]].
      { rewrite S_INR in Hn. lra. }
      exists (S k), t. rewrite S_INR.
      split; [ lia | ]. split; [ lra | ]. split; [ exact H0 | ].
      split.
      * intros _. destruct (Rlt_dec (t0 + period) 0) as [H1 | H1].
        -- now apply Hlt.
        -- destruct k.
           ++ simpl in Ht. lra.
           ++ (* the loop would have stopped at [t0 + period] *)
              specialize (Hrun (S (S n)) ltac:(lia)). simpl in Hrun.
              replace (Rltb (t0 + period) 0) with false in Hrun
                by (symmetry; apply Rltb_false; lra).
              injection Hrun as Hrun. rewrite S_INR in Ht.
              pose proof (pos_INR k). nra.
      * intros fuel Hf. destruct fuel; [ lia | ]. simpl.
        replace (Rltb t0 0) with true by (symmetry; now apply Rltb_true).
        apply Hrun. lia.
    + exists 0%nat, t0. simpl.
      repeat split; try lra; try lia.
      intros fuel Hf. destruct fuel; [ lia | ]. simpl.
      replace (Rltb t0 0) with false
        by (symmetry; apply Rltb_false; lra).
      reflexivity.
Qed.

(** X25: whatever the starting value, with a positive period the loop
    [while (internalTime < 0) internalTime += period] ends: some number of
    loop tests suffices, every larger number gives the same result, the
    result is the starting value plus a whole number of periods and is not
    negative, and it is below one period when the loop ran at all. *)
Theorem normalization_loop_terminates (period t0 : R) :
  0 < period ->
  exists (enough k : nat) (t : R),
    (forall fuel : nat, (enough <= fuel)%nat ->
       normalizeInternalTime fuel period t0 = Some t) /\
    t = t0 + INR k * period /\
    0 <= t /\ (t0 < 0 -> t < period).
Proof.
  intros Hp.
  set (z := up (- t0 / period)).
  destruct (archimed (- t0 / period)) as [Hup _]. fold z in Hup.
  set (n := Z.to_nat z).
  assert (Hn : 0 <= t0 + INR n * period).
  { destruct (Z_le_gt_dec 0 z) as [Hz | Hz].
    - unfold n. rewrite INR_IZR_INZ, Z2Nat.id by exact Hz.
      apply (Rmult_lt_compat_r period) in Hup; [ | exact Hp ].
      replace (- t0 / period * period) with (- t0) in Hup by (field; lra).
      lra.
    - assert (Hz' : IZR z <= 0) by (apply (IZR_le z 0); lia).
      assert (H0 : - t0 / period < 0) by lra.
      assert (Ht0 : 0 < t0).
      { apply (Rmult_lt_compat_r period) in H0; [ | exact Hp ].
        replace (- t0 / period * period) with (- t0) in H0 by (field; lra).
        lra. }
      pose proof (pos_INR n). nra. }
  destruct (normalizeInternalTime_additions period n t0 Hp Hn)
    as [k [t [_ [Ht [H0 [Hlt Hrun]]]]]].
  exists (S n), k, t. split; [ | auto ].
  intros fuel Hf. apply Hrun. lia.
Qed.

Lemma normalization_loop_terminates_witness :
  exists (enough k : nat) (t : R),
    (forall fuel : nat, (enough <= fuel)%nat ->
       normalizeInternalTime fuel 2 (-7) = Some t) /\
    t = -7 + INR k * 2 /\ 0 <= t /\ (-7 < 0 -> t < 2).
Proof.
  apply (normalization_loop_terminates 2 (-7)). lra.
Defined.

(** ** Key-point annotator: order of the returned points *)

Lemma pushIf_app (c : bool) (p : Point) (l : list Point) :
  pushIf c p l = l ++ pushIf c p [].
Proof. unfold pushIf. destruct c; [ reflexivity | now rewrite app_nil_r ]. Qed.

Lemma keyPointsIteration_lists (w : World) (minTime maxTime : R)
  (type : ChartType) (acc : KeyPoints) (n : Z) :
  let r := keyPointsIteration w minTime maxTime type acc n in
  maximos r = maximos acc ++ maximaOf w minTime maxTime type n /\
  minimos r = minimos acc ++ minimaOf w minTime maxTime type n /\
  ceros r = ceros acc ++ zerosOf w minTime maxTime type n.
Proof.
  cbv zeta. rewrite keyPointsIteration_candidates.
  unfold maximaOf, minimaOf, zerosOf, tMaxOf, tMinOf, tZero1Of, tZero2Of.
  destruct (candidateTimes w type n) as [[[tMax tMin] tZero1] tZero2].
  destruct (extremeValues w type) as [yMax yMin].
  cbn [maximos minimos ceros fst snd].
  unfold pushIf.
  repeat match goal with
         | |- context [if ?c then _ else _] => destruct c
         end;
    rewrite <- ?app_assoc, ?app_nil_r; auto.
Qed.

Lemma keyPointsLoop_lists (w : World) (minTime maxTime : R)
  (type : ChartType) (ns : list Z) (acc : KeyPoints) :
  let r := fold_left (keyPointsIteration w minTime maxTime type) ns acc in
  maximos r = maximos acc ++ flat_map (maximaOf w minTime maxTime type) ns /\
  minimos r = minimos acc ++ flat_map (minimaOf w minTime maxTime type) ns /\
  ceros r = ceros acc ++ flat_map (zerosOf w minTime maxTime type) ns.
Proof.
  cbv zeta. revert acc. induction ns as [| n ns IH]; intros acc.
  - simpl. now rewrite !app_nil_r.
  - simpl fold_left.
    destruct (IH (keyPointsIteration w minTime maxTime type acc n))
      as [Hmax [Hmin Hzero]].
    rewrite Hmax, Hmin, Hzero.
    destruct (keyPointsIteration_lists w minTime maxTime type acc n)
      as [-> [-> ->]].
    simpl flat_map. rewrite <- !app_assoc. auto.
Qed.

Lemma sorted_app (l1 l2 : list R) :
  StronglySorted Rlt l1 -> StronglySorted Rlt l2 ->
  (forall a b, In a l1 -> In b l2 -> a < b) ->
  StronglySorted Rlt (l1 ++ l2).
Proof.
  intros H1 H2 H. induction l1 as [| a l1 IH]; [ exact H2 | ].
  inversion H1 as [| a' l' Hs Hall]; subst. simpl. constructor.
  - apply IH; [ exact Hs | ]. intros c b Hc Hb. apply H; [ now right | auto ].
  - apply Forall_app. split; [ exact Hall | ].
    apply Forall_forall. intros b Hb. apply H; [ now left | exact Hb ].
Qed.

Lemma flat_map_sorted (f : Z -> list Point) (ns : list Z) :
  StronglySorted Z.lt ns ->
  (forall n, StronglySorted Rlt (map x (f n))) ->
  (forall n m p q, (n < m)%Z -> In p (f n) -> In q (f m) -> x p < x q) ->
  StronglySorted Rlt (map x (flat_map f ns)).
Proof.
  intros Hns Hf Hlt. induction ns as [| n ns IH]; [ constructor | ].
  inversion Hns as [| n' ns' Hs Hall]; subst.
  simpl. rewrite map_app. apply sorted_app; [ apply Hf | now apply IH | ].
  intros a b Ha Hb.
  apply in_map_iff in Ha as [p [<- Hp]].
  apply in_map_iff in Hb as [q [<- Hq]].
  apply in_flat_map in Hq as [m [Hm Hq]].
  rewrite Forall_forall in Hall.
  apply (Hlt n m); auto.
Qed.

Lemma forRange_sorted (startN endN : Z) :
  StronglySorted Z.lt (forRange startN endN).
Proof.
  unfold forRange. generalize (Z.to_nat (endN - startN + 1)) as len.
  generalize 0%nat as s. intros s len. revert s.
  induction len as [| len IH]; intros s; simpl; constructor.
  - apply IH.
  - apply Forall_forall. intros z Hz.
    apply in_map_iff in Hz as [i [<- Hi]]. apply in_seq in Hi. lia.
Qed.

Lemma offset_time_lt (w : World) (c1 c2 : R) (n m : Z) :
  0 < calculateOmega w ->
  c1 + 2 * PI * IZR n < c2 + 2 * PI * IZR m ->
  (c1 + 2 * PI * IZR n - phase (params w)) / calculateOmega w <
  (c2 + 2 * PI * IZR m - phase (params w)) / calculateOmega w.
Proof.
  intros Hw H. unfold Rdiv. apply Rmult_lt_compat_r; [ | lra ].
  now apply Rinv_0_lt_compat.
Qed.

(** The order of the candidate times, within a cycle and across cycles. *)
Lemma candidateTimes_order (w : World) (type : ChartType) (n m : Z) :
  0 < calculateOmega w ->
  tZero1Of w type n < tZero2Of w type n /\
  ((n < m)%Z ->
   tMaxOf w type n < tMaxOf w type m /\
   tMinOf w type n < tMinOf w type m /\
   tZero2Of w type n < tZero1Of w type m).
Proof.
  intros Hw. pose proof PI_RGT_0 as Hpi.
  unfold tMaxOf, tMinOf, tZero1Of, tZero2Of, candidateTimes.
  destruct type; cbn [fst snd]; split;
    try (intros Hnm;
         assert (Hz : IZR n + 1 <= IZR m)
           by (rewrite <- plus_IZR; apply IZR_le; lia);
         repeat split);
    unfold Rdiv; apply Rmult_lt_compat_r;
    try (now apply Rinv_0_lt_compat); nra.
Qed.

Lemma pushIf_nil_In (c : bool) (p q : Point) :
  In q (pushIf c p []) -> q = p.
Proof. unfold pushIf. destruct c; simpl; intuition. Qed.

(** X26: with a positive angular frequency, each of the three returned
    lists is in strictly increasing order of time, so no key point is
    returned twice. *)
Theorem key_points_in_time_order (w : World) (minTime maxTime : R)
  (type : ChartType) :
  0 < calculateOmega w ->
  let kp := calculateKeyPoints w minTime maxTime type in
  StronglySorted Rlt (map x (maximos kp)) /\
  StronglySorted Rlt (map x (minimos kp)) /\
  StronglySorted Rlt (map x (ceros kp)).
Proof.
  intros Hw. cbv zeta. unfold calculateKeyPoints. cbv zeta.
  match goal with
  | |- context [fold_left _ (forRange ?a ?b) ?acc] =>
      pose proof (keyPointsLoop_lists w minTime maxTime type (forRange a b) acc)
        as H;
      pose proof (forRange_sorted a b) as Hs;
      set (range := forRange a b) in *
  end.
  cbv zeta in H. destruct H as [-> [-> ->]]. simpl.
  assert (Hord := fun n m => candidateTimes_order w type n m Hw).
  repeat split; apply flat_map_sorted; try exact Hs.
  - intros n. unfold maximaOf, pushIf.
    destruct (visibleAndOccurred _ _ _ _); repeat constructor.
  - intros n m p q Hnm Hp Hq.
    apply pushIf_nil_In in Hp, Hq. subst. simpl.
    now apply (proj2 (Hord n m)).
  - intros n. unfold minimaOf, pushIf.
    destruct (visibleAndOccurred _ _ _ _); repeat constructor.
  - intros n m p q Hnm Hp Hq.
    apply pushIf_nil_In in Hp, Hq. subst. simpl.
    now apply (proj2 (Hord n m)).
  - intros n. unfold zerosOf, pushIf.
    destruct (Hord n n) as [H12 _].
    destruct (visibleAndOccurred _ _ _ (tZero2Of w type n));
      destruct (visibleAndOccurred _ _ _ (tZero1Of w type n));
      simpl; repeat constructor; exact H12.
  - intros n m p q Hnm Hp Hq.
    destruct (Hord n n) as [Hn12 _]. destruct (Hord m m) as [Hm12 _].
    destruct (Hord n m) as [_ Hx]. destruct (Hx Hnm) as [_ [_ H21]].
    assert (Hpn : x p <= tZero2Of w type n).
    { unfold zerosOf in Hp. apply pushIf_In in Hp.
      destruct Hp as [Hp | [_ ->]]; [ | simpl; lra ].
      apply pushIf_nil_In in Hp. subst. simpl. lra. }
    assert (Hqm : tZero1Of w type m <= x q).
    { unfold zerosOf in Hq. apply pushIf_In in Hq.
      destruct Hq as [Hq | [_ ->]]; [ | simpl; lra ].
      apply pushIf_nil_In in Hq. subst. simpl. lra. }
    lra.
Qed.

(** A maximum whose time is visible and has occurred is returned. *)
Lemma visible_maximum_returned (w : World) (minTime maxTime : R)
  (type : ChartType) (n : Z) :
  0 < calculateOmega w ->
  visibleAndOccurred w minTime maxTime (tMaxOf w type n) = true ->
  In (mkPoint (tMaxOf w type n) (fst (extremeValues w type)))
     (maximos (calculateKeyPoints w minTime maxTime type)).
Proof.
  intros Hw Hv.
  pose proof (visible_index_in_range w minTime maxTime type n _ Hw
                (or_introl eq_refl) Hv) as Hin.
  unfold calculateKeyPoints. cbv zeta.
  match goal with
  | |- context [fold_left _ ?ns ?acc] =>
      pose proof (keyPointsLoop_In w minTime maxTime type ns acc
                    (mkPoint (tMaxOf w type n) (fst (extremeValues w type))))
        as H
  end.
  cbv zeta in H. destruct H as [Hmax _]. apply Hmax.
  right. exists n. auto.
Qed.

Lemma sqrt_40_ge_4 : 4 <= sqrt (40 / 1).
Proof.
  rewrite <- (sqrt_square 4) at 1 by lra.
  apply sqrt_le_1; lra.
Qed.

Lemma key_points_in_time_order_witness :
  let w :=
    setSimulation (setTime 2 (simulation (initialWorld 400 500)))
      (initialWorld 400 500) in
  let kp := calculateKeyPoints w 0 10 type_position in
  let first :=
    mkPoint (tMaxOf w type_position 0) (fst (extremeValues w type_position)) in
  let second :=
    mkPoint (tMaxOf w type_position 1) (fst (extremeValues w type_position)) in
  In first (maximos kp) /\ In second (maximos kp) /\ x first < x second /\
  StronglySorted Rlt (map x (maximos kp)) /\
  StronglySorted Rlt (map x (minimos kp)) /\
  StronglySorted Rlt (map x (ceros kp)).
Proof.
  cbv zeta.
  set (w := setSimulation (setTime 2 (simulation (initialWorld 400 500)))
              (initialWorld 400 500)).
  assert (Hw : 0 < calculateOmega w) by (apply calculateOmega_pos; simpl; lra).
  assert (Homega : calculateOmega w = sqrt (40 / 1)) by reflexivity.
  assert (H0 : tMaxOf w type_position 0 = 0).
  { unfold tMaxOf, candidateTimes. cbn [fst snd]. simpl phase.
    unfold Rdiv. ring. }
  assert (H1 : 0 < tMaxOf w type_position 1 <= 2).
  { unfold tMaxOf, candidateTimes. cbn [fst snd]. simpl phase.
    rewrite Homega. pose proof sqrt_40_ge_4 as Hs.
    pose proof PI_RGT_0 as Hpi. pose proof PI_4 as Hpi4.
    assert (Hi : 0 < / sqrt (40 / 1)) by (apply Rinv_0_lt_compat; lra).
    replace ((2 * PI * 1 - 0) / sqrt (40 / 1))
      with (2 * PI * / sqrt (40 / 1)) by (unfold Rdiv; ring).
    split; [ apply Rmult_lt_0_compat; lra | ].
    apply (Rmult_le_reg_r (sqrt (40 / 1))); [ lra | ].
    rewrite Rmult_assoc, Rinv_l by lra. lra. }
  split; [ | split; [ | split ] ].
  - apply visible_maximum_returned; [ exact Hw | ].
    apply visibleAndOccurred_true. rewrite H0. simpl. lra.
  - apply visible_maximum_returned; [ exact Hw | ].
    apply visibleAndOccurred_true. simpl time. lra.
  - simpl x. lra.
  - apply (key_points_in_time_order w 0 10 type_position). exact Hw.
Defined.

(** ** The earlier version of the script *)

(** X27: the validation gate is the only difference between the two
    versions of [startSimulation]: with no field invalid they do the same;
    with a field invalid and the simulation not running, the earlier
    version starts it and the current one does not. *)
Theorem legacy_start_differs_only_by_gate (w : World) :
  (hasErrors w = false -> Legacy.startSimulation w = startSimulation w) /\
  (hasErrors w = true -> isRunning (simulation w) = false ->
   isRunning (simulation (Legacy.startSimulation w)) = true /\
   isRunning (simulation (startSimulation w)) = false).
Proof.
  unfold Legacy.startSimulation, startSimulation. split.
  - intros ->. reflexivity.
  - intros -> Hr. rewrite Hr. simpl. auto.
Qed.

Lemma legacy_start_differs_only_by_gate_witness :
  let w := manualInput key_mass None (initialWorld 400 500) in
  isRunning (simulation (Legacy.startSimulation w)) = true /\
  isRunning (simulation (startSimulation w)) = false.
Proof.
  cbv zeta.
  apply (legacy_start_differs_only_by_gate
           (manualInput key_mass None (initialWorld 400 500)));
    reflexivity.
Defined.

Lemma evictOld_same_times (minTime : R) (pos1 pos2 vel acc : list Point) :
  map x pos1 = map x pos2 ->
  exists k : nat,
    evictOld minTime pos1 vel acc = (skipn k pos1, skipn k vel, skipn k acc) /\
    evictOld minTime pos2 vel acc = (skipn k pos2, skipn k vel, skipn k acc).
Proof.
  revert pos2 vel acc. induction pos1 as [| p pos1 IH]; intros pos2 vel acc H.
  - destruct pos2; [ | discriminate ]. exists 0%nat. simpl. auto.
  - destruct pos2 as [| q pos2]; [ discriminate | ].
    simpl in H. injection H as Hx H. simpl. rewrite <- Hx.
    destruct (Rltb (x p) minTime).
    + destruct (IH pos2 (tl vel) (tl acc) H) as [k [H1 H2]].
      exists (S k). rewrite H1, H2.
      destruct vel, acc; simpl; rewrite ?skipn_nil; auto.
    + exists 0%nat. simpl. auto.
Qed.

(** X28: the two versions of [addDataPoint] differ only in the unit of the
    pushed position: in spring mode they do the same; in pendulum mode they
    leave the same velocity and acceleration series and evict the same
    number of samples, the current version holding the new position in
    degrees where the earlier one holds it in radians. *)
Theorem legacy_addDataPoint_differs_only_by_unit (t p v a : R) (w : World) :
  (simulationMode w = spring ->
   Legacy.addDataPoint t p v a w = addDataPoint t p v a w) /\
  velocity (graphData (Legacy.addDataPoint t p v a w)) =
    velocity (graphData (addDataPoint t p v a w)) /\
  acceleration (graphData (Legacy.addDataPoint t p v a w)) =
    acceleration (graphData (addDataPoint t p v a w)) /\
  exists k : nat,
    position (graphData (Legacy.addDataPoint t p v a w)) =
      skipn k (position (graphData w) ++ [mkPoint t p]) /\
    position (graphData (addDataPoint t p v a w)) =
      skipn k (position (graphData w) ++
               [mkPoint t match simulationMode w with
                          | pendulum => p * 180 / PI
                          | spring => p
                          end]).
Proof.
  split.
  - intros Hm. unfold Legacy.addDataPoint, addDataPoint. now rewrite Hm.
  - unfold Legacy.addDataPoint, addDataPoint. cbv zeta.
    match goal with
    | |- context [evictOld ?m (?ps ++ [?q1]) ?vs ?cs] =>
        match goal with
        | |- context [evictOld m (ps ++ [?q2]) vs cs] =>
            lazymatch q2 with
            | q1 => fail
            | _ =>
                destruct (evictOld_same_times m (ps ++ [q1]) (ps ++ [q2]) vs cs)
                  as [k [H1 H2]];
                [ rewrite !map_app; reflexivity | rewrite H1, H2 ]
            end
        end
    end.
    simpl. repeat split; try reflexivity.
    exists k. auto.
Qed.

Lemma legacy_addDataPoint_differs_only_by_unit_witness :
  Legacy.addDataPoint 1 2 3 4 (initialWorld 400 500) =
  addDataPoint 1 2 3 4 (initialWorld 400 500).
Proof.
  apply (legacy_addDataPoint_differs_only_by_unit 1 2 3 4
           (initialWorld 400 500)).
  reflexivity.
Defined.

(** ** What no operation changes *)

Lemma step_constants (w w' : World) :
  step w w' ->
  timeScale (simulation w') = timeScale (simulation w) /\
  timeWindow (graphData w') = timeWindow (graphData w) /\
  canvasWidth (host w') = canvasWidth (host w) /\
  canvasHeight (host w') = canvasHeight (host w).
Proof.
  intros Hstep. destruct Hstep.
  - unfold startSimulation.
    destruct (hasErrors w); [ simpl; auto | ].
    destruct (negb (isRunning (simulation w))); simpl; auto.
  - unfold pauseSimulation. simpl.
    destruct (animationId (simulation w)) as [[| id] |]; simpl; auto.
  - unfold resetSimulation, pauseSimulation. simpl.
    destruct (animationId (simulation w)) as [[| id] |]; simpl;
      destruct (simulationMode w); simpl; auto.
  - unfold switchMode, resetSimulation, pauseSimulation. simpl.
    destruct (animationId (simulation w)) as [[| id] |]; simpl;
      destruct mode; simpl; auto.
  - simpl. auto.
  - destruct (manualInput_frame k v w) as [Hs [Hh _]].
    rewrite Hs, Hh, manualInput_graphData. auto.
  - unfold deliverFrame.
    set (w1 := setHost (cancelAnimationFrame id (host w)) w).
    destruct (isRunning (simulation w1)) eqn:Hr.
    + destruct (animate_simulation w1 timestamp Hr) as [_ [_ [Hs _]]].
      destruct (animate_graphData timestamp w1 Hr) as [Hg _].
      cbv zeta in Hg. rewrite Hs, Hg.
      match goal with
      | |- context [addDataPoint ?t ?p ?v ?a w1] =>
          destruct (addDataPoint_frame t p v a w1) as [_ [_ [_ [_ [_ Hw]]]]]
      end.
      rewrite Hw. repeat split; try reflexivity.
      * revert Hr. unfold w1.
        destruct w as [m p [t r a l s] v d g h]. simpl. intros ->.
        unfold animate, addDataPoint. cbv zeta. simpl.
        destruct (Req_dec_T l 0); destruct m; simpl;
          destruct (evictOld _ _ _ _) as [[pos' vel'] acc']; reflexivity.
      * revert Hr. unfold w1.
        destruct w as [m p [t r a l s] v d g h]. simpl. intros ->.
        unfold animate, addDataPoint. cbv zeta. simpl.
        destruct (Req_dec_T l 0); destruct m; simpl;
          destruct (evictOld _ _ _ _) as [[pos' vel'] acc']; reflexivity.
    + unfold animate. rewrite Hr. simpl. auto.
  - unfold handleCanvasMouseDown.
    destruct (isMouseOverMass w mouseX mouseY); [ | auto ].
    unfold pauseSimulation. simpl.
    destruct (isRunning (simulation w)); simpl; auto.
    destruct (animationId (simulation w)) as [[| id] |]; simpl; auto.
  - destruct (handleCanvasMouseMove_frame _ _ _ _ _ H)
      as [_ [_ [_ [Hs [Hh _]]]]].
    rewrite Hs, Hh, (handleCanvasMouseMove_graphData _ _ _ _ _ H). auto.
  - unfold handleCanvasMouseUp.
    destruct (isDragging (dragState w)); simpl; auto.
Qed.

(** X2: no operation of the page changes the time scale, the time window
    or the canvas size: in every reachable state the time scale is 1 and
    the window 5 seconds, as set at load. *)
Theorem reachable_constants (width height : R) (w : World) :
  reachable width height w ->
  timeScale (simulation w) = 1 /\
  timeWindow (graphData w) = 5 /\
  canvasWidth (host w) = width /\
  canvasHeight (host w) = height.
Proof.
  induction 1 as [| w w' _ IH Hstep].
  - simpl. auto.
  - destruct (step_constants w w' Hstep) as [H1 [H2 [H3 H4]]].
    rewrite H1, H2, H3, H4. exact IH.
Qed.

Lemma reachable_constants_witness :
  timeWindow
    (graphData (switchMode pendulum (startSimulation (initialWorld 400 500))))
  = 5.
Proof.
  assert (Hr : reachable 400 500
                 (switchMode pendulum (startSimulation (initialWorld 400 500)))).
  { eapply reachable_step; [ | apply step_mode ].
    eapply reachable_step; [ apply reachable_initial | apply step_start ]. }
  apply (reachable_constants 400 500 _ Hr).
Defined.

(** ** Sample buffer: nothing is evicted within the first window *)

(** A frame whose new window still reaches back to every buffered sample
    evicts nothing. *)
Lemma animate_no_eviction (timestamp : R) (w : World) :
  isRunning (simulation w) = true ->
  let w' := animate timestamp w in
  let t' := time (simulation w') in
  Forall (fun q => t' - timeWindow (graphData w) - 1 / 2 <= x q)
    (position (graphData w)) ->
  0 <= timeWindow (graphData w) ->
  forall type : ChartType,
    seriesOf w' type =
    seriesOf w type ++ [mkPoint t' (plottedValue w type t')].
Proof.
  intros Hr. cbv zeta. intros Hall HW type.
  destruct (animate_series timestamp w Hr) as [k [Hs Hf]]. cbv zeta in Hs, Hf.
  rewrite Hs. destruct k as [| k]; [ reflexivity | exfalso ].
  simpl seriesOf in Hf.
  destruct (position (graphData w)) as [| q l]; simpl in Hf.
  - inversion Hf as [| ? ? Hq _]; subst. simpl in Hq. lra.
  - inversion Hf as [| ? ? Hq _]; subst.
    inversion Hall as [| ? ? Hq' _]; subst. lra.
Qed.

Lemma Sorted_last_ge (l : R) (timestamps : list R) :
  Sorted Rle (l :: timestamps) -> l <= last timestamps l.
Proof.
  revert l. induction timestamps as [| ts rest IH]; intros l Hs.
  - simpl. lra.
  - inversion Hs as [| a b Hs' Hhd]; subst.
    inversion Hhd as [| c d Hle]; subst.
    specialize (IH ts Hs').
    destruct rest as [| r rest']; [ simpl; lra | ].
    rewrite (last_nonempty_default rest' ts r l ts). lra.
Qed.

Lemma runFrames_no_eviction (timestamps : list R) (w : World) (l base : R) :
  isRunning (simulation w) = true ->
  timeScale (simulation w) = 1 ->
  lastTimestamp (simulation w) = l ->
  0 < l ->
  Sorted Rle (l :: timestamps) ->
  0 <= timeWindow (graphData w) ->
  Forall (fun q => base <= x q) (position (graphData w)) ->
  base <= time (simulation w) ->
  time (simulation w) + (last timestamps l - l) / 1000 <=
    base + timeWindow (graphData w) + 1 / 2 ->
  forall type : ChartType,
    length (seriesOf (runFrames timestamps w) type) =
    (length (seriesOf w type) + length timestamps)%nat.
Proof.
  revert w l. induction timestamps as [| ts rest IH];
    intros w l Hr Hs Hl Hpos Hsorted HW Hall Hbase Hbudget type.
  - simpl. lia.
  - inversion Hsorted as [| a b Hsorted' Hhd]; subst a b.
    inversion Hhd as [| c d Hle]; subst c d.
    pose proof (Sorted_last_ge ts rest Hsorted') as Hlast.
    assert (Hlast' : last (ts :: rest) l = last rest ts).
    { destruct rest; [ reflexivity | ]. apply last_nonempty_default. }
    rewrite Hlast' in Hbudget.
    pose proof (animate_simulation w ts Hr) as Ha. cbv zeta in Ha.
    destruct Ha as [Ht [Hl' [Hs' Hr']]].
    rewrite Hl, Hs in Ht. rewrite Hs in Hs'.
    destruct (Req_dec_T l 0) as [H0 | _]; [ lra | ].
    assert (Hmin0 : 0 <= Rmin ((ts - l) / 1000) (1 / 10))
      by (apply Rmin_glb; lra).
    pose proof (Rmin_l ((ts - l) / 1000) (1 / 10)) as Hmin1.
    set (w' := animate ts w) in *.
    assert (HW' : timeWindow (graphData w') = timeWindow (graphData w)).
    { unfold w'. destruct (animate_graphData ts w Hr) as [Hg _].
      cbv zeta in Hg. rewrite Hg. apply addDataPoint_frame. }
    assert (Hstep : forall ty,
              seriesOf w' ty =
              seriesOf w ty ++
              [mkPoint (time (simulation w'))
                 (plottedValue w ty (time (simulation w')))]).
    { apply (animate_no_eviction ts w Hr); [ | exact HW ].
      eapply Forall_impl; [ | exact Hall ]. simpl. intros q Hq.
      fold w'. lra. }
    change (runFrames (ts :: rest) w) with (runFrames rest w').
    assert (Hpos' : 0 < ts) by lra.
    assert (HW2 : 0 <= timeWindow (graphData w')) by now rewrite HW'.
    assert (Hall' : Forall (fun q => base <= x q) (position (graphData w'))).
    { pose proof (Hstep type_position) as Hp. simpl seriesOf in Hp.
      rewrite Hp. apply Forall_app. split; [ exact Hall | ].
      constructor; [ simpl; lra | constructor ]. }
    assert (Hbase' : base <= time (simulation w')) by lra.
    assert (Hbudget' : time (simulation w') + (last rest ts - ts) / 1000 <=
                       base + timeWindow (graphData w') + 1 / 2)
      by (rewrite HW'; lra).
    rewrite (IH w' ts Hr' Hs' Hl' Hpos' Hsorted' HW2 Hall' Hbase' Hbudget').
    rewrite Hstep, length_app. simpl. lia.
Qed.

(** X29: the buffer is bounded by time only, never by [maxPoints]: after a
    start from empty series, as long as the frames (at positive,
    non-decreasing timestamps) span no more than [timeWindow] + 0.5
    seconds of wall clock, nothing is evicted and each series holds exactly
    one sample per frame, however many frames that is. *)
Theorem buffer_holds_one_sample_per_frame (w : World) (first : R)
  (rest : list R) :
  isRunning (simulation w) = true ->
  timeScale (simulation w) = 1 ->
  lastTimestamp (simulation w) = 0 ->
  (forall type : ChartType, seriesOf w type = []) ->
  0 <= timeWindow (graphData w) ->
  0 < first ->
  Sorted Rle (first :: rest) ->
  (last rest first - first) / 1000 <= timeWindow (graphData w) + 1 / 2 ->
  forall type : ChartType,
    length (seriesOf (runFrames (first :: rest) w) type) = S (length rest).
Proof.
  intros Hr Hs Hl Hempty HW Hpos Hsorted Hspan type.
  change (runFrames (first :: rest) w) with (runFrames rest (animate first w)).
  pose proof (animate_simulation w first Hr) as Ha. cbv zeta in Ha.
  destruct Ha as [Ht [Hl' [Hs' Hr']]].
  rewrite Hl, Hs in Ht. rewrite Hs in Hs'.
  destruct (Req_dec_T 0 0) as [_ | Hne]; [ | contradiction ].
  replace ((first - first) / 1000) with 0 in Ht by field.
  rewrite Rmin_left in Ht by lra.
  set (w' := animate first w) in *.
  assert (HW' : timeWindow (graphData w') = timeWindow (graphData w)).
  { unfold w'. destruct (animate_graphData first w Hr) as [Hg _].
    cbv zeta in Hg. rewrite Hg. apply addDataPoint_frame. }
  assert (Hstep : forall ty,
            seriesOf w' ty =
            seriesOf w ty ++
            [mkPoint (time (simulation w'))
               (plottedValue w ty (time (simulation w')))]).
  { apply (animate_no_eviction first w Hr); [ | exact HW ].
    pose proof (Hempty type_position) as Hp. simpl in Hp. rewrite Hp.
    constructor. }
  assert (HW2 : 0 <= timeWindow (graphData w')) by now rewrite HW'.
  assert (Hall' : Forall (fun q => time (simulation w') <= x q)
                    (position (graphData w'))).
  { pose proof (Hstep type_position) as Hp. simpl seriesOf in Hp.
    rewrite Hp. pose proof (Hempty type_position) as He. simpl in He.
    rewrite He. simpl. constructor; [ simpl; lra | constructor ]. }
  assert (Hbudget' : time (simulation w') + (last rest first - first) / 1000
                     <= time (simulation w') + timeWindow (graphData w') +
                        1 / 2)
    by (rewrite HW'; lra).
  rewrite (runFrames_no_eviction rest w' first (time (simulation w')) Hr' Hs'
             Hl' Hpos Hsorted HW2 Hall' (Rle_refl _) Hbudget').
  rewrite Hstep, Hempty. simpl. lia.
Qed.

Lemma buffer_holds_one_sample_per_frame_witness :
  length
    (seriesOf
       (runFrames [1000; 1004; 1008; 1012]
          (startSimulation (initialWorld 400 500)))
       type_velocity) = 4%nat.
Proof.
  apply (buffer_holds_one_sample_per_frame
           (startSimulation (initialWorld 400 500)) 1000 [1004; 1008; 1012]);
    try reflexivity.
  - intros type. destruct type; reflexivity.
  - simpl. lra.
  - lra.
  - repeat constructor; lra.
  - simpl. lra.
Defined.
